(** * KindleAnnotationParser: the annotation-extraction pipeline

    A shallow embedding of [annotation_parser.py] (class [AnnotationParser])
    and the properties of its Normalizer, Reader, Merger and Writer.

    Modelling conventions.
    - A Python [str] is a list of Unicode code points ([N]).
    - The built-in string methods the parser calls ([strip], [rstrip],
      [splitlines], [split], [join], [rfind], slicing) are written out
      after their CPython behaviour.
    - [str.isalnum] (a table of the Unicode database) and the built-in
      [hash] (keyed by a per-process seed) are parameters of the development.
    - A text-mode file object is the list of the lines it still has to
      deliver; the file system maps a path to the text of a regular file. *)

From Stdlib Require Import String Ascii DecimalString DecimalZ.
From Stdlib Require Import Bool NArith ZArith Lia List.
From Equations Require Import Equations.
Import ListNotations.

Set Implicit Arguments.

(* ===================================================================== *)
(** ** Strings *)
(* ===================================================================== *)

Definition char := N.
Definition str := list char.

(** A literal: the code points of an ASCII string. *)
Definition text (s : string) : str :=
  map N_of_ascii (list_ascii_of_string s).

Definition LF : char := 10%N.
Definition CR : char := 13%N.

Section CharClasses.
Local Open Scope N_scope.

(** [Py_UNICODE_ISSPACE]: the characters [str.strip()] removes. *)
Definition is_space (c : char) : bool :=
  ((9 <=? c) && (c <=? 13)) || ((28 <=? c) && (c <=? 32))
  || (c =? 133) || (c =? 160) || (c =? 5760)
  || ((8192 <=? c) && (c <=? 8202))
  || (c =? 8232) || (c =? 8233) || (c =? 8239) || (c =? 8287)
  || (c =? 12288).

(** [Py_UNICODE_ISLINEBREAK]: the boundaries [str.splitlines()] splits at. *)
Definition is_linebreak (c : char) : bool :=
  ((10 <=? c) && (c <=? 13)) || ((28 <=? c) && (c <=? 30))
  || (c =? 133) || (c =? 8232) || (c =? 8233).

End CharClasses.

Fixpoint str_eqb (a b : str) : bool :=
  match a, b with
  | [], [] => true
  | x :: a', y :: b' => N.eqb x y && str_eqb a' b'
  | _, _ => false
  end.

Definition is_empty (s : str) : bool :=
  match s with [] => true | _ :: _ => false end.

(** [s.lstrip] / [s.rstrip] / [s.strip] for a class of characters [p]. *)
Fixpoint lstrip_with (p : char -> bool) (s : str) : str :=
  match s with
  | [] => []
  | c :: s' => if p c then lstrip_with p s' else s
  end.

Definition rstrip_with (p : char -> bool) (s : str) : str :=
  rev (lstrip_with p (rev s)).

Definition mem_char (chars : str) (c : char) : bool :=
  existsb (N.eqb c) chars.

(** [s.rstrip(chars)] *)
Definition rstrip_chars (chars s : str) : str := rstrip_with (mem_char chars) s.
(** [s.rstrip()] *)
Definition rstrip (s : str) : str := rstrip_with is_space s.
(** [s.strip()] *)
Definition strip (s : str) : str := rstrip_with is_space (lstrip_with is_space s).

(** [sep.join(parts)] *)
Fixpoint join (sep : str) (parts : list str) : str :=
  match parts with
  | [] => []
  | [p] => p
  | p :: ps => p ++ sep ++ join sep ps
  end.

(** [s.split(c)] for a one-character separator: always at least one field. *)
Fixpoint split_aux (c : char) (cur s : str) : list str :=
  match s with
  | [] => [cur]
  | x :: s' => if N.eqb x c then cur :: split_aux c [] s'
               else split_aux c (cur ++ [x]) s'
  end.

Definition split (c : char) (s : str) : list str := split_aux c [] s.

(** [s.splitlines()]: no line ends are kept, CR LF is one boundary, and a
    last line is delivered only when it is not empty. *)
Fixpoint splitlines_aux (cur s : str) : list str :=
  match s with
  | [] => match cur with [] => [] | _ :: _ => [cur] end
  | x :: s' =>
      if is_linebreak x then
        cur :: (if N.eqb x CR then
                  match s' with
                  | y :: s'' => if N.eqb y LF then splitlines_aux [] s''
                                else splitlines_aux [] s'
                  | [] => splitlines_aux [] s'
                  end
                else splitlines_aux [] s')
      else splitlines_aux (cur ++ [x]) s'
  end.

Definition splitlines (s : str) : list str := splitlines_aux [] s.

(** [s.rfind(c)] for a one-character [c]: the highest index, or -1. *)
Fixpoint rfind_from (c : char) (s : str) (i found : Z) : Z :=
  match s with
  | [] => found
  | x :: s' => rfind_from c s' (i + 1)%Z (if N.eqb x c then i else found)
  end.

Definition rfind (c : char) (s : str) : Z := rfind_from c s 0%Z (-1)%Z.

(** [s[a:b]] for indices [0 <= a], [0 <= b]. *)
Definition slice (a b : Z) (s : str) : str :=
  skipn (Z.to_nat a) (firstn (Z.to_nat b) s).

(** [str(n)] for an [int]: its decimal digits, with a minus sign when
    negative. *)
Definition str_of_int (n : Z) : str :=
  text (NilEmpty.string_of_int (Z.to_int n)).

(* ===================================================================== *)
(** ** Normalizer *)
(* ===================================================================== *)

Definition NEW_LINE : str := [LF].
Definition MAX_TITLE_LENGTH : nat := 112.

(** [AnnotationParser._normalize_block] *)
Definition _normalize_block (block_text : str) : str :=
  let block_text := rstrip block_text in
  block_text ++ NEW_LINE.

(* ===================================================================== *)
(** ** Ordered dictionaries *)
(* ===================================================================== *)

(** The per-book dictionary [{annotation_block: True, ...}]: every value is
    [True], so the dictionary is the list of its keys in insertion order. *)
Definition odict := list str.

(** [block in d] *)
Definition odict_mem (block : str) (d : odict) : bool :=
  existsb (str_eqb block) d.

(** [d.setdefault(block, True)]: a new key goes last, a present key keeps
    its place. *)
Definition setdefault (block : str) (d : odict) : odict :=
  if odict_mem block d then d else d ++ [block].

(** [self.books]: raw header -> per-book dictionary, in insertion order. *)
Definition Books := list (str * odict).

(** [header in books] *)
Fixpoint books_mem (header : str) (books : Books) : bool :=
  match books with
  | [] => false
  | (k, _) :: rest => str_eqb k header || books_mem header rest
  end.

(** [books[header]] *)
Fixpoint books_get (header : str) (books : Books) : option odict :=
  match books with
  | [] => None
  | (k, d) :: rest => if str_eqb k header then Some d else books_get header rest
  end.

(** [books[header] = d]: a present key keeps its place, a new key goes last. *)
Fixpoint books_set (header : str) (d : odict) (books : Books) : Books :=
  match books with
  | [] => [(header, d)]
  | (k, d0) :: rest =>
      if str_eqb k header then (k, d) :: rest
      else (k, d0) :: books_set header d rest
  end.

(** An in-place update of the dictionary stored under [header]. *)
Fixpoint books_mutate (header : str) (f : odict -> odict) (books : Books)
  : Books :=
  match books with
  | [] => []
  | (k, d) :: rest =>
      if str_eqb k header then (k, f d) :: rest
      else (k, d) :: books_mutate header f rest
  end.

(* ===================================================================== *)
(** ** Text files *)
(* ===================================================================== *)

(** Reading in text mode with the default [newline=None]: CR LF and a lone
    CR arrive as LF. *)
Fixpoint universal_newlines (s : str) : str :=
  match s with
  | [] => []
  | x :: s' =>
      if N.eqb x CR then
        LF :: match s' with
              | y :: s'' => if N.eqb y LF then universal_newlines s''
                            else universal_newlines s'
              | [] => universal_newlines s'
              end
      else x :: universal_newlines s'
  end.

(** The lines [readline] delivers: each keeps its LF; a last line without
    one is delivered when it is not empty. *)
Fixpoint readlines_aux (cur s : str) : list str :=
  match s with
  | [] => match cur with [] => [] | _ :: _ => [cur] end
  | x :: s' => if N.eqb x LF then (cur ++ [x]) :: readlines_aux [] s'
               else readlines_aux (cur ++ [x]) s'
  end.

(** An open text file: the lines not read yet. [readline()] takes the first
    one, and returns the empty string exactly when none is left. *)
Definition file := list str.

Definition open_text (raw : str) : file :=
  readlines_aux [] (universal_newlines raw).

Definition readline (f : file) : str * file :=
  match f with
  | [] => ([], [])
  | line :: rest => (line, rest)
  end.

(** [f.read()] *)
Definition read_text (raw : str) : str := universal_newlines raw.

(** The regular files, by path, with their text. *)
Definition filesystem := str -> option str.

(** [open(path, 'w')] followed by the writes [data]; a line terminator is
    written as LF (the POSIX [os.linesep]). *)
Definition fs_write (path data : str) (fs : filesystem) : filesystem :=
  fun p => if str_eqb p path then Some data else fs p.

(** [posixpath.join(a, b)] *)
Definition SLASH : char := 47%N.

Definition os_path_join (a b : str) : str :=
  match b with
  | c :: _ =>
      if N.eqb c SLASH then b
      else if is_empty a || N.eqb (last a 0%N) SLASH then a ++ b
      else a ++ [SLASH] ++ b
  | [] =>
      if is_empty a || N.eqb (last a 0%N) SLASH then a ++ b
      else a ++ [SLASH] ++ b
  end.

(** The exceptions of the file operations: [FileNotFoundError], and
    [OSError] for one that is not a [FileNotFoundError] (a
    [NotADirectoryError] or a [FileExistsError]). *)
Inductive exn := FileNotFoundError | OSError.

Inductive result (A : Type) :=
| Ok (a : A)
| Raise (e : exn).
Arguments Ok {A} a.
Arguments Raise {A} e.

(** The directories a path goes through: what stands before each of its
    slashes, the root apart. *)
Fixpoint ancestors_from (seen path : str) : list str :=
  match path with
  | [] => []
  | c :: rest =>
      if N.eqb c SLASH then
        match seen with
        | [] => ancestors_from (seen ++ [c]) rest
        | _ :: _ => seen :: ancestors_from (seen ++ [c]) rest
        end
      else ancestors_from (seen ++ [c]) rest
  end.

Definition ancestors (path : str) : list str := ancestors_from [] path.

(** Does the path go through a regular file? *)
Definition under_a_file (fs : filesystem) (path : str) : bool :=
  existsb (fun p => match fs p with Some _ => true | None => false end)
          (ancestors path).

(** [os.makedirs(path, exist_ok=True)], called for a path that does not
    exist. Directories are not part of [filesystem], and creating them
    changes no regular file; what is seen here is the exception: for the
    empty path, and for a path that goes through a regular file. *)
Definition os_makedirs (path : str) (fs : filesystem) : result unit :=
  if is_empty path then Raise FileNotFoundError
  else if under_a_file fs path then Raise OSError
  else Ok tt.

(* ===================================================================== *)
(** ** The parser *)
(* ===================================================================== *)

Definition SEPARATOR : str := repeat 61%N 10.   (* "==========" *)
Definition CRLF : str := [CR; LF].              (* the argument '\r\n' *)
Definition LPAREN : char := 40%N.
Definition RPAREN : char := 41%N.
Definition SAFE_PUNCTUATION : str := text " ._()-".

Record AnnotationParser := mkParser {
  input_path : str;
  output_path : str;
  books : Books;
  merge_option : bool
}.

(** [AnnotationParser.__init__] *)
Definition __init__ (input_path output_path : str) (merge_option : bool)
  : AnnotationParser :=
  mkParser input_path output_path [] merge_option.

Definition set_books (self : AnnotationParser) (b : Books) : AnnotationParser :=
  mkParser (input_path self) (output_path self) b (merge_option self).

(** [AnnotationParser.number_of_books] *)
Definition number_of_books (self : AnnotationParser) : nat :=
  length (books self).

(** [AnnotationParser._read_block]: the loop, with the text accumulated so
    far; the result is the block and the file after the lines consumed. *)
Fixpoint _read_block_loop (infile : file) (annotation : str) : str * file :=
  match infile with
  | [] => (annotation ++ NEW_LINE, [])
  | current_line :: rest =>
      if str_eqb (strip current_line) SEPARATOR then
        (annotation ++ NEW_LINE, rest)
      else
        let current_line := rstrip_chars CRLF current_line in
        if is_empty current_line then
          _read_block_loop rest (annotation ++ current_line)
        else
          _read_block_loop rest (annotation ++ current_line ++ NEW_LINE)
  end.

Definition _read_block (infile : file) : str * file :=
  _read_block_loop infile [].

(** [AnnotationParser._get_title_author] *)
Definition _get_title_author (book_header : str) : str * str :=
  let open_paren := rfind LPAREN book_header in
  let close_paren := rfind RPAREN book_header in
  if ((0 <? open_paren) && (open_paren <? close_paren))%Z then
    (strip (slice 0 open_paren book_header),
     strip (slice (open_paren + 1) close_paren book_header))
  else
    (strip book_header, []).

(** [AnnotationParser._split_into_blocks]: the loop over the lines, then
    the block left at the end. *)
Fixpoint _split_loop (lines : list str) (blocks : list str)
  (current_block : list str) : list str * list str :=
  match lines with
  | [] => (blocks, current_block)
  | line :: rest =>
      if is_empty (strip line) then
        match current_block with
        | _ :: _ =>
            let block := join NEW_LINE current_block ++ NEW_LINE in
            _split_loop rest (blocks ++ [block]) []
        | [] => _split_loop rest blocks current_block
        end
      else _split_loop rest blocks (current_block ++ [line])
  end.

Definition _split_into_blocks (annotation_text : str) : list str :=
  let lines := split LF annotation_text in
  let '(blocks, current_block) := _split_loop lines [] [] in
  match current_block with
  | _ :: _ => blocks ++ [join NEW_LINE current_block ++ NEW_LINE]
  | [] => blocks
  end.

(** [AnnotationParser._read_existing_blocks], from the text of the file. *)
Definition _read_existing_blocks (raw : str) : list str :=
  let content := read_text raw in
  let lines := splitlines content in
  let idx := 1 in
  let idx := match nth_error lines idx with
             | Some l => if is_empty (strip l) then idx + 1 else idx
             | None => idx
             end in
  let annotation_lines := skipn idx lines in
  let annotation_text := join NEW_LINE annotation_lines in
  _split_into_blocks annotation_text.

(** [AnnotationParser._merge_with_existing], from the text of the file: the
    dictionary after the old blocks went in. *)
Definition _merge_with_existing (raw : str) (annotation_dict : odict) : odict :=
  let old_blocks := _read_existing_blocks raw in
  fold_left (fun d block => setdefault (_normalize_block block) d)
            old_blocks annotation_dict.

(** What [_write] sends to the output file of one book. *)
Definition written_text (title author : str) (annotation_dict : odict) : str :=
  fold_left (fun out block_text => out ++ (block_text ++ NEW_LINE))
            annotation_dict
            (title ++ text ", " ++ author ++ NEW_LINE ++ NEW_LINE).

Section Pipeline.

(** [ch.isalnum()] for a character: a table of the Unicode database. *)
Variable isalnum : char -> bool.

(** The built-in [hash] of the running process. For a [str] it is keyed by
    a seed drawn when the interpreter starts (PYTHONHASHSEED), so each
    process has its own function. *)
Variable hash : str -> Z.

(** The header of an entry, from its first line ([_read], lines 69-72). *)
Definition header_of_line (header_line : str) : str :=
  let header_line := rstrip_chars CRLF header_line in
  match header_line with
  | c :: tail => if negb (isalnum c) then tail else header_line
  | [] => header_line
  end.

(** [_read], lines 83-87: the insertion of a block into the book's
    dictionary, created when the header is new. *)
Definition add_annotation (header_line annotation_block : str) (books : Books)
  : Books :=
  let books := if books_mem header_line books then books
               else books_set header_line [] books in
  books_mutate header_line (setdefault annotation_block) books.

(** [AnnotationParser._read]: the loop over the open file. *)
Equations? _read_loop (infile : file) (books : Books) : Books
  by wf (length infile) lt :=
  _read_loop [] books := books;
  _read_loop (header_line :: rest) books :=
    let header_line := header_of_line header_line in
    if is_empty header_line then _read_loop rest books
    else
      let annotation_block := fst (_read_block rest) in
      let annotation_block := _normalize_block annotation_block in
      _read_loop (snd (_read_block rest))
                 (add_annotation header_line annotation_block books).
Proof.
  unfold _read_block. clear. generalize (@nil char).
  induction rest as [|l rest IH]; intros acc; simpl; [lia|].
  destruct (str_eqb (strip l) SEPARATOR); simpl; [lia|].
  destruct (is_empty (rstrip_chars CRLF l));
    match goal with |- context [_read_block_loop rest ?a] =>
      specialize (IH a) end; lia.
Qed.

(** [AnnotationParser._read] *)
Definition _read (self : AnnotationParser) (fs : filesystem)
  : result AnnotationParser :=
  match fs (input_path self) with
  | None => Raise FileNotFoundError
  | Some raw => Ok (set_books self (_read_loop (open_text raw) (books self)))
  end.

(** [_write], lines 132-135 *)
Definition output_filename (raw_header : str) : str :=
  let title := fst (_get_title_author raw_header) in
  let clean_title :=
    filter (fun ch => isalnum ch || mem_char SAFE_PUNCTUATION ch) title in
  let clean_title := firstn MAX_TITLE_LENGTH clean_title in
  let hash_str := str_of_int (hash raw_header) in
  clean_title ++ text "_" ++ hash_str ++ text ".txt".

(** [_write], lines 129-147: one turn of the loop. The dictionary is the
    one stored in [self.books], so what the merge adds stays there. *)
Definition _write_book (output_path : str) (merge_option : bool)
  (raw_header : str) (annotation_dict : odict) (fs : filesystem)
  : odict * filesystem :=
  let '(title, author) := _get_title_author raw_header in
  let fullpath := os_path_join output_path (output_filename raw_header) in
  let annotation_dict :=
    if merge_option then
      match fs fullpath with
      | Some raw => _merge_with_existing raw annotation_dict
      | None => annotation_dict
      end
    else annotation_dict in
  (annotation_dict,
   fs_write fullpath (written_text title author annotation_dict) fs).

Fixpoint _write_loop (output_path : str) (merge_option : bool)
  (items : Books) (fs : filesystem) : Books * filesystem :=
  match items with
  | [] => ([], fs)
  | (raw_header, annotation_dict) :: rest =>
      let '(annotation_dict, fs) :=
        _write_book output_path merge_option raw_header annotation_dict fs in
      let '(rest, fs) := _write_loop output_path merge_option rest fs in
      ((raw_header, annotation_dict) :: rest, fs)
  end.

(** [AnnotationParser._write]. A path that holds a regular file exists, so
    no directory is made for it; for any other path [os.makedirs] runs
    unless the directory is there already, which it leaves alone. Under
    an output path that is a regular file the first [open(fullpath, 'w')]
    raises [NotADirectoryError], before anything is merged or written; in
    the loop itself every [open] succeeds. *)
Definition _write (self : AnnotationParser) (fs : filesystem)
  : result unit * AnnotationParser * filesystem :=
  let made :=
    match fs (output_path self) with
    | Some _ => Ok tt
    | None => os_makedirs (output_path self) fs
    end in
  match made with
  | Raise e => (Raise e, self, fs)
  | Ok _ =>
      match fs (output_path self), books self with
      | Some _, _ :: _ => (Raise OSError, self, fs)
      | _, _ =>
          let '(b, fs) :=
            _write_loop (output_path self) (merge_option self)
                        (books self) fs in
          (Ok tt, set_books self b, fs)
      end
  end.

(** [AnnotationParser.parse]: the outcome, the parser and the file system
    afterwards. An exception leaves both as they were when it was raised. *)
Definition parse (self : AnnotationParser) (fs : filesystem)
  : result unit * AnnotationParser * filesystem :=
  match _read self fs with
  | Raise e => (Raise e, self, fs)
  | Ok self => _write self fs
  end.

End Pipeline.

(** An [isalnum] restricted to ASCII, and a constant [hash], to run the
    pipeline on examples. *)
Definition ascii_isalnum (c : char) : bool :=
  ((48 <=? c) && (c <=? 57) || (65 <=? c) && (c <=? 90)
   || (97 <=? c) && (c <=? 122))%N.

Definition const_hash (v : Z) : str -> Z := fun _ => v.

(** Sample data: the entry of the end-to-end example, twice. *)
Definition sample_header : str := text "My Book (Jane Doe)".
Definition sample_block : str := text "This is a highlight." ++ [LF].

Definition sample_clippings : str :=
  sample_header ++ [LF] ++ sample_block ++ SEPARATOR ++ [LF]
  ++ sample_header ++ [CR; LF] ++ sample_block ++ SEPARATOR ++ [LF].

(** An output file of an earlier run, with one block. *)
Definition sample_old_file : str :=
  text "My Book, Jane Doe" ++ [LF; LF] ++ text "An older note." ++ [LF; LF].

(** An empty file system, and one that holds the clippings file. *)
Definition no_files : filesystem := fun _ => None.

Definition sample_fs : filesystem :=
  fs_write (text "clippings.txt") sample_clippings no_files.

(** A clippings file without any header, and the lines of one entry. *)
Definition blank_fs : filesystem :=
  fs_write (text "clippings.txt") [LF; LF] no_files.

Definition sample_header_line : str := sample_header ++ [LF].
Definition sample_separator_line : str := SEPARATOR ++ [CR; LF].

(* ===================================================================== *)
(** ** The front end ([main.py]) *)
(* ===================================================================== *)

(** A message box shown to the user. *)
Inductive dialog :=
| showerror (title message : str)
| showinfo (title message : str).

Definition LAST_PARSE_DATE : str := text "LastParseDate.txt".

(** [open(path, 'a')] followed by one write. *)
Definition fs_append (path data : str) (fs : filesystem) : filesystem :=
  fs_write path
    (match fs path with Some old => old ++ data | None => data end) fs.

(** [KindleAnnotationParserApp.save_date_stamp]; [now] is the text of
    [datetime.datetime.now().isoformat()], and [os.linesep] is LF. *)
Definition save_date_stamp (now : str) (fs : filesystem) : filesystem :=
  fs_append LAST_PARSE_DATE (now ++ [LF]) fs.

(** [KindleAnnotationParserApp.run_parser]: the message box shown and the
    file system afterwards, from the two entry fields, the check box, the
    radio button and the clock; [str_of_exception e] is the text of
    [str(e)], which the operating system words. *)
Definition run_parser (isalnum : char -> bool) (hash : str -> Z)
  (str_of_exception : exn -> str)
  (input_var output_var : str) (date_stamp_var merge_option : bool)
  (now : str) (fs : filesystem) : list dialog * filesystem :=
  let input_path := strip input_var in
  let output_path := strip output_var in
  if is_empty input_path || is_empty output_path then
    ([showerror (text "Error")
        (text "Please select both input file and output folder.")], fs)
  else
    let parser := __init__ input_path output_path merge_option in
    match parse isalnum hash parser fs with
    | (Ok _, parser, fs) =>
        let info :=
          showinfo (text "Parsing complete")
            (text "Parsing complete." ++ [LF]
             ++ str_of_int (Z.of_nat (number_of_books parser))
             ++ text " annotation entries created.") in
        ([info], if date_stamp_var then save_date_stamp now fs else fs)
    | (Raise FileNotFoundError, _, fs) =>
        ([showerror (text "Error") (text "File not found.")], fs)
    | (Raise e, _, fs) =>
        ([showerror (text "Error")
            (text "An error occurred:" ++ [LF] ++ str_of_exception e)], fs)
    end.

(* ===================================================================== *)
(** ** Notions of the specification *)
(* ===================================================================== *)

(** The lines of a block, each closed by one line terminator. *)
Definition unlines (ls : list str) : str :=
  concat (map (fun l => l ++ NEW_LINE) ls).

(** A separator line: [==========] once surrounding white space is gone. *)
Definition is_separator (line : str) : bool :=
  str_eqb (strip line) SEPARATOR.

(** A line without its line terminator. *)
Definition line_text (line : str) : str := rstrip_chars CRLF line.

(** The lines of a block: those before the first separator line, or all of
    them when there is none; and the file after the block, the separator
    line included. *)
Fixpoint lines_of_block (infile : file) : list str :=
  match infile with
  | [] => []
  | line :: rest =>
      if is_separator line then [] else line :: lines_of_block rest
  end.

Fixpoint file_after_block (infile : file) : file :=
  match infile with
  | [] => []
  | line :: rest => if is_separator line then rest else file_after_block rest
  end.

(** What one line adds to the block: nothing when it is empty, else its
    text and one line terminator. *)
Definition contribution (line : str) : str :=
  match line_text line with
  | [] => []
  | _ :: _ => line_text line ++ NEW_LINE
  end.

(** The last-parenthesis rule: when the last [(] of the header is not its
    first character and the last [)] comes after it, the title is what
    precedes that [(] and the author what lies between the two, both
    trimmed; otherwise the title is the trimmed header and the author is
    empty. *)
Definition last_parens (header pre mid post : str) : Prop :=
  header = pre ++ [LPAREN] ++ mid ++ [RPAREN] ++ post
  /\ pre <> []
  /\ ~ In LPAREN mid /\ ~ In LPAREN post /\ ~ In RPAREN post.

Inductive title_author_rule (header : str) : str -> str -> Prop :=
| rule_parens pre mid post :
    last_parens header pre mid post ->
    title_author_rule header (strip pre) (strip mid)
| rule_plain :
    (forall pre mid post, ~ last_parens header pre mid post) ->
    title_author_rule header (strip header) [].

(** Text without any line boundary of [str.splitlines]. *)
Definition has_no_linebreak (s : str) : bool :=
  forallb (fun c => negb (is_linebreak c)) s.

(** A line [_split_into_blocks] keeps inside a block: it holds no line
    boundary and is not blank. *)
Definition plain_line (l : str) : bool :=
  has_no_linebreak l && negb (is_empty (strip l)).

(** The lines of the empty block (one line terminator), or plain lines. *)
Definition block_lines_ok (ls : list str) : Prop :=
  ls = [[]] \/ (ls <> [] /\ forallb plain_line ls = true).

(** The first occurrence of every element, in order. *)
Fixpoint keep_first (l : list str) : list str :=
  match l with
  | [] => []
  | b :: rest => b :: filter (fun x => negb (str_eqb b x)) (keep_first rest)
  end.

(** A block in canonical form. *)
Definition canonical (b : str) : Prop := _normalize_block b = b.

(** The invariant of a per-book dictionary, and of [self.books]. *)
Definition book_inv (d : odict) : Prop := NoDup d /\ Forall canonical d.

Definition books_inv (books : Books) : Prop :=
  Forall (fun entry => book_inv (snd entry)) books.

(** A block that survives the way through the output file: a canonical
    block that is the empty block or is made of plain lines. *)
Definition recoverable (b : str) : Prop :=
  canonical b /\ exists ls, block_lines_ok ls /\ b = unlines ls.

(** The lines of a block other than the empty block. *)
Definition kept (ls : list str) : bool :=
  negb (str_eqb (unlines ls) NEW_LINE).

(* ===================================================================== *)
(** ** Notions for the further properties *)
(* ===================================================================== *)

(** The path of the output file of a book. *)
Definition book_path (isalnum : char -> bool) (hash : str -> Z)
  (output_path raw_header : str) : str :=
  os_path_join output_path (output_filename isalnum hash raw_header).

(** [books'] holds the books of [books], at the same places, each with its
    blocks at the same places; what is new comes after. *)
Inductive extends : Books -> Books -> Prop :=
| extends_nil books' : extends [] books'
| extends_cons header d d' rest rest' :
    extends rest rest' ->
    extends ((header, d) :: rest) ((header, d ++ d') :: rest').

(** The books of a parser that started without any: distinct headers, none
    empty, and no book without a block. *)
Definition keys_inv (books : Books) : Prop :=
  NoDup (map fst books)
  /\ Forall (fun entry => fst entry <> [] /\ snd entry <> []) books.

(** A block as [_split_into_blocks] builds it: one or more lines, none
    blank, none holding a line terminator. *)
Definition split_line_ok (l : str) : Prop := strip l <> [] /\ ~ In LF l.

Definition split_block_ok (b : str) : Prop :=
  exists ls, ls <> [] /\ Forall split_line_ok ls /\ b = unlines ls.

(** One entry of a clippings file: the header line, the lines of the block
    and the separator line. *)
Definition entry (header_line : str) (block_lines : list str) (sep : str)
  : file :=
  header_line :: block_lines ++ [sep].

(** The headers of the entries of a file, in the order of the entries: a
    line outside a block is a header line, kept when its header is not
    empty, and the block it opens runs to the next separator line. *)
Fixpoint headers_from (isalnum : char -> bool) (in_block : bool)
  (infile : file) : list str :=
  match infile with
  | [] => []
  | line :: rest =>
      if in_block then headers_from isalnum (negb (is_separator line)) rest
      else
        match header_of_line isalnum line with
        | [] => headers_from isalnum false rest
        | _ :: _ =>
            header_of_line isalnum line :: headers_from isalnum true rest
        end
  end.

Definition entry_headers (isalnum : char -> bool) (infile : file) : list str :=
  headers_from isalnum false infile.

(** Text for [str(e)] on the sample runs. *)
Definition sample_str_of_exception (e : exn) : str :=
  match e with
  | FileNotFoundError => text "[Errno 2] No such file or directory"
  | OSError => text "[Errno 20] Not a directory"
  end.

(** A character of a decimal numeral. *)
Definition is_numeral_char (c : char) : bool :=
  ((48 <=? c) && (c <=? 57) || (c =? 45))%N.

(* ===================================================================== *)
(** ** Strings: basic facts *)
(* ===================================================================== *)

Lemma str_eqb_eq (a b : str) : str_eqb a b = true <-> a = b.
Proof.
  revert b. induction a as [|x a IH]; destruct b as [|y b]; simpl;
    try (split; [discriminate | congruence]).
  - split; trivial.
  - rewrite andb_true_iff, N.eqb_eq, IH. split.
    + intros [-> ->]. reflexivity.
    + intros E. injection E as -> ->. auto.
Qed.

Lemma str_eqb_refl (a : str) : str_eqb a a = true.
Proof. apply str_eqb_eq. reflexivity. Qed.

Lemma str_eqb_neq (a b : str) : str_eqb a b = false <-> a <> b.
Proof.
  rewrite <- str_eqb_eq. destruct (str_eqb a b); split; congruence.
Qed.

Lemma is_empty_nil (s : str) : is_empty s = true <-> s = [].
Proof. destruct s; simpl; split; congruence. Qed.

Lemma lstrip_with_idem p s : lstrip_with p (lstrip_with p s) = lstrip_with p s.
Proof.
  induction s as [|c s IH]; simpl; trivial.
  destruct (p c) eqn:E; trivial. simpl. now rewrite E.
Qed.

Lemma rstrip_with_idem p s : rstrip_with p (rstrip_with p s) = rstrip_with p s.
Proof.
  unfold rstrip_with. now rewrite rev_involutive, lstrip_with_idem.
Qed.

Lemma rstrip_with_snoc p s c :
  rstrip_with p (s ++ [c]) = if p c then rstrip_with p s else s ++ [c].
Proof.
  unfold rstrip_with. rewrite rev_app_distr. simpl.
  destruct (p c); trivial. simpl. now rewrite rev_involutive.
Qed.

(** What [rstrip_with] leaves and what it removes. *)
Lemma lstrip_with_split p s :
  exists ws, s = ws ++ lstrip_with p s /\ forallb p ws = true /\
             match lstrip_with p s with [] => True | c :: _ => p c = false end.
Proof.
  induction s as [|c s (ws & E & F & L)]; simpl.
  - exists []. auto.
  - destruct (p c) eqn:Pc.
    + exists (c :: ws). simpl. rewrite Pc, F. repeat split; trivial.
      now rewrite <- E.
    + exists []. auto.
Qed.

Lemma rstrip_with_split p s :
  exists ws, s = rstrip_with p s ++ ws /\ forallb p ws = true /\
             match rev (rstrip_with p s) with
             | [] => True
             | c :: _ => p c = false
             end.
Proof.
  unfold rstrip_with.
  destruct (lstrip_with_split p (rev s)) as (ws & E & F & L).
  exists (rev ws). rewrite rev_involutive. repeat split; trivial.
  - rewrite <- rev_app_distr, <- E. now rewrite rev_involutive.
  - rewrite forallb_forall in *. intros x Hx. apply F. now apply in_rev.
Qed.

(* ===================================================================== *)
(** ** Normalizer *)
(* ===================================================================== *)

Lemma rstrip_normalized s : rstrip (_normalize_block s) = rstrip s.
Proof.
  unfold _normalize_block, rstrip, NEW_LINE.
  rewrite rstrip_with_snoc. change (is_space LF) with true. cbv iota.
  apply rstrip_with_idem.
Qed.

(** C4. Normalization is idempotent. The normal form of [s] is [s] without
    its trailing white space (line terminators are white space), which is
    all of the longest white suffix, followed by exactly one line
    terminator. *)
Lemma normalize_canonical (s : str) : canonical (_normalize_block s).
Proof.
  unfold canonical, _normalize_block at 1 3. now rewrite rstrip_normalized.
Qed.

Theorem normalize_idempotent (s : str) :
  _normalize_block (_normalize_block s) = _normalize_block s
  /\ exists body ws,
       s = body ++ ws
       /\ forallb is_space ws = true
       /\ match rev body with [] => True | c :: _ => is_space c = false end
       /\ _normalize_block s = body ++ [LF].
Proof.
  split.
  - apply normalize_canonical.
  - destruct (rstrip_with_split is_space s) as (ws & E & F & L).
    exists (rstrip s), ws. repeat split; trivial.
Qed.

(* ===================================================================== *)
(** ** Ordered dictionaries: insertion *)
(* ===================================================================== *)

Lemma odict_mem_In b d : odict_mem b d = true <-> In b d.
Proof.
  unfold odict_mem. rewrite existsb_exists. split.
  - intros (x & Hx & E). apply str_eqb_eq in E. now subst.
  - intros H. exists b. split; trivial. apply str_eqb_refl.
Qed.

Lemma odict_mem_not_In b d : odict_mem b d = false <-> ~ In b d.
Proof.
  rewrite <- odict_mem_In. destruct (odict_mem b d); split; congruence.
Qed.

Lemma setdefault_present b d : In b d -> setdefault b d = d.
Proof. intros H. unfold setdefault. apply odict_mem_In in H. now rewrite H. Qed.

Lemma setdefault_absent b d : ~ In b d -> setdefault b d = d ++ [b].
Proof.
  intros H. unfold setdefault. apply odict_mem_not_In in H. now rewrite H.
Qed.

Lemma NoDup_snoc (b : str) d : NoDup d -> ~ In b d -> NoDup (d ++ [b]).
Proof.
  induction d as [|x d IH]; simpl; intros ND NI.
  - constructor; [tauto | constructor].
  - inversion ND; subst. constructor.
    + rewrite in_app_iff. simpl. intuition congruence.
    + apply IH; tauto.
Qed.

Lemma setdefault_NoDup b d : NoDup d -> NoDup (setdefault b d).
Proof.
  intros ND. unfold setdefault. destruct (odict_mem b d) eqn:E; trivial.
  apply NoDup_snoc; trivial. now apply odict_mem_not_In.
Qed.

Lemma setdefault_Forall (P : str -> Prop) b d :
  P b -> Forall P d -> Forall P (setdefault b d).
Proof.
  intros Pb F. unfold setdefault. destruct (odict_mem b d); trivial.
  apply Forall_app. split; trivial. constructor; trivial.
Qed.

Lemma In_keep_first x l : In x (keep_first l) -> In x l.
Proof.
  induction l as [|a l IH]; simpl; trivial.
  intros [->|H]; auto. apply filter_In in H. tauto.
Qed.

Lemma filter_all (A : Type) (p : A -> bool) l :
  (forall x, In x l -> p x = true) -> filter p l = l.
Proof.
  induction l as [|a l IH]; simpl; intros H; trivial.
  rewrite (H a) by auto. f_equal. apply IH. auto.
Qed.

Lemma filter_comm (A : Type) (p q : A -> bool) l :
  filter p (filter q l) = filter q (filter p l).
Proof.
  induction l as [|a l IH]; simpl; trivial.
  destruct (p a) eqn:Pa, (q a) eqn:Qa; simpl; rewrite ?Pa, ?Qa, IH; trivial.
Qed.

Lemma filter_andb (A : Type) (p q : A -> bool) l :
  filter q (filter p l) = filter (fun x => p x && q x) l.
Proof.
  induction l as [|a l IH]; simpl; trivial.
  destruct (p a) eqn:Pa; simpl; [destruct (q a)|]; now rewrite IH.
Qed.

Lemma keep_first_filter (p : str -> bool) l :
  keep_first (filter p l) = filter p (keep_first l).
Proof.
  induction l as [|a l IH]; simpl; trivial.
  destruct (p a) eqn:Pa; simpl.
  - rewrite IH. f_equal. apply filter_comm.
  - rewrite filter_comm, <- IH. symmetry. apply filter_all.
    intros x Hx. apply In_keep_first, filter_In in Hx.
    destruct (str_eqb a x) eqn:E; trivial.
    apply str_eqb_eq in E. subst. destruct Hx. congruence.
Qed.

(** Inserting a list of blocks one by one: the new ones go last, each
    once, in the order of their first occurrence. *)
Lemma fold_setdefault bs : forall d,
  fold_left (fun d b => setdefault b d) bs d
  = d ++ keep_first (filter (fun b => negb (odict_mem b d)) bs).
Proof.
  induction bs as [|b bs IH]; intros d; simpl.
  - now rewrite app_nil_r.
  - rewrite IH. unfold setdefault at 1 2.
    destruct (odict_mem b d) eqn:E; simpl; trivial.
    rewrite <- app_assoc. simpl. do 2 f_equal.
    rewrite <- keep_first_filter, filter_andb. f_equal.
    apply filter_ext. intros x. unfold odict_mem. rewrite existsb_app. simpl.
    rewrite orb_false_r, negb_orb. f_equal. f_equal.
    destruct (str_eqb b x) eqn:E1.
    + apply str_eqb_eq in E1. subst. apply str_eqb_refl.
    + apply str_eqb_neq. apply str_eqb_neq in E1. congruence.
Qed.

Lemma fold_left_map (A B C : Type) (f : A -> C -> A) (g : B -> C) l : forall a,
  fold_left (fun a b => f a (g b)) l a = fold_left f (map g l) a.
Proof. induction l; simpl; auto. Qed.

Lemma merge_as_fold raw d :
  _merge_with_existing raw d
  = fold_left (fun d b => setdefault b d)
      (map _normalize_block (_read_existing_blocks raw)) d.
Proof.
  unfold _merge_with_existing.
  apply (fold_left_map (fun d b => setdefault b d) _normalize_block).
Qed.

(** The merge, in closed form. *)
Lemma merge_closed_form raw d :
  _merge_with_existing raw d
  = d ++ keep_first (filter (fun b => negb (odict_mem b d))
                            (map _normalize_block (_read_existing_blocks raw))).
Proof. rewrite merge_as_fold. apply fold_setdefault. Qed.

Lemma keep_first_In x l : In x l -> In x (keep_first l).
Proof.
  induction l as [|a l IH]; simpl; trivial.
  intros [->|H]; auto.
  destruct (str_eqb a x) eqn:E.
  - apply str_eqb_eq in E. auto.
  - right. apply filter_In. rewrite E. auto.
Qed.

Lemma keep_first_NoDup l : NoDup (keep_first l).
Proof.
  induction l as [|a l IH]; simpl; constructor.
  - rewrite filter_In, str_eqb_refl. simpl. intros [_ H]. discriminate.
  - now apply NoDup_filter.
Qed.

(** Where nothing is repeated, nothing is dropped and the order stays. *)
Lemma keep_first_NoDup_id l : NoDup l -> keep_first l = l.
Proof.
  induction 1 as [|a l Ha _ IH]; simpl; trivial.
  rewrite IH. f_equal. apply filter_all. intros x Hx.
  apply negb_true_iff, str_eqb_neq. congruence.
Qed.

Lemma fold_writes d : forall pre,
  fold_left (fun out block_text => out ++ (block_text ++ NEW_LINE)) d pre
  = pre ++ concat (map (fun b => b ++ [LF]) d).
Proof.
  induction d as [|b d IH]; intros pre; simpl.
  - now rewrite app_nil_r.
  - rewrite IH. now rewrite <- !app_assoc.
Qed.

Lemma written_text_eq title author d :
  written_text title author d
  = title ++ text ", " ++ author ++ [LF] ++ [LF]
    ++ concat (map (fun b => b ++ [LF]) d).
Proof.
  unfold written_text. rewrite fold_writes. unfold NEW_LINE.
  now rewrite <- !app_assoc.
Qed.

Lemma fs_write_same path data fs : fs_write path data fs path = Some data.
Proof. unfold fs_write. now rewrite str_eqb_refl. Qed.

(* ===================================================================== *)
(** ** Merger *)
(* ===================================================================== *)

(** C2. Merging the text [raw] of an existing output file into the
    dictionary [d] of the current run gives [d] itself, untouched and in its
    order, followed by the blocks recovered from [raw] that [d] does not
    hold, each once, in the order of their first occurrence in [raw].
    [_write] merges only when the merge option is set and the output file
    exists; otherwise it writes the blocks of the current run alone. *)
Theorem merge_appends_old_blocks
  (isalnum : char -> bool) (hash : str -> Z)
  (output_path raw_header raw : str) (d : odict) (fs : filesystem) :
  let recovered := map _normalize_block (_read_existing_blocks raw) in
  let added := keep_first (filter (fun b => negb (odict_mem b d)) recovered) in
  let title := fst (_get_title_author raw_header) in
  let author := snd (_get_title_author raw_header) in
  let fullpath :=
    os_path_join output_path (output_filename isalnum hash raw_header) in
  _merge_with_existing raw d = d ++ added
  /\ NoDup added
  /\ (forall b, In b added <-> In b recovered /\ ~ In b d)
  /\ _write_book isalnum hash output_path false raw_header d fs
     = (d, fs_write fullpath (written_text title author d) fs)
  /\ _write_book isalnum hash output_path true raw_header d fs
     = match fs fullpath with
       | Some old =>
           (_merge_with_existing old d,
            fs_write fullpath
              (written_text title author (_merge_with_existing old d)) fs)
       | None => (d, fs_write fullpath (written_text title author d) fs)
       end.
Proof.
  intros recovered added title author fullpath.
  split; [apply merge_closed_form|].
  split; [apply keep_first_NoDup|].
  split.
  - intros b. unfold added. split.
    + intros H. apply In_keep_first, filter_In in H. destruct H as [H1 H2].
      split; trivial. apply odict_mem_not_In. now apply negb_true_iff.
    + intros [H1 H2]. apply keep_first_In, filter_In. split; trivial.
      apply negb_true_iff. now apply odict_mem_not_In.
  - unfold _write_book, title, author, fullpath.
    destruct (_get_title_author raw_header) as [t a]. simpl.
    split; trivial. now destruct (fs _).
Qed.

(* ===================================================================== *)
(** ** Duplicate freedom *)
(* ===================================================================== *)

Lemma book_inv_setdefault raw d :
  book_inv d -> book_inv (setdefault (_normalize_block raw) d).
Proof.
  intros [ND F]. split.
  - now apply setdefault_NoDup.
  - apply setdefault_Forall; trivial. apply normalize_canonical.
Qed.

Lemma book_inv_merge raw d : book_inv d -> book_inv (_merge_with_existing raw d).
Proof.
  unfold _merge_with_existing. generalize (_read_existing_blocks raw).
  intros l. revert d. induction l as [|b l IH]; simpl; intros d H; trivial.
  apply IH. now apply book_inv_setdefault.
Qed.

Lemma book_inv_normalized d : book_inv d -> NoDup (map _normalize_block d).
Proof.
  intros [ND F]. replace (map _normalize_block d) with d; trivial.
  rewrite <- (map_id d) at 1. apply map_ext_in.
  intros b Hb. symmetry. rewrite Forall_forall in F. now apply F.
Qed.

Lemma books_inv_mutate header f books :
  (forall d, book_inv d -> book_inv (f d)) ->
  books_inv books -> books_inv (books_mutate header f books).
Proof.
  intros Hf. unfold books_inv.
  induction books as [|[k d] rest IH]; simpl; intros H; trivial.
  inversion H; subst. destruct (str_eqb k header); constructor; simpl; auto.
Qed.

Lemma books_inv_set_empty header books :
  books_inv books -> books_inv (books_set header [] books).
Proof.
  unfold books_inv.
  induction books as [|[k d] rest IH]; simpl; intros H.
  - repeat constructor.
  - inversion H; subst.
    destruct (str_eqb k header); constructor; simpl; auto.
    repeat constructor.
Qed.

Lemma books_inv_add header raw books :
  books_inv books ->
  books_inv (add_annotation header (_normalize_block raw) books).
Proof.
  intros H. unfold add_annotation. apply books_inv_mutate.
  - intros d. apply book_inv_setdefault.
  - destruct (books_mem header books); trivial.
    now apply books_inv_set_empty.
Qed.

Lemma books_inv_read isalnum infile books :
  books_inv books -> books_inv (_read_loop isalnum infile books).
Proof.
  funelim (_read_loop isalnum infile books); intros Hinv; trivial.
  destruct (is_empty (header_of_line isalnum header_line)); auto.
  match goal with IH : _ -> books_inv (_read_loop _ (snd _) _) |- _ =>
    apply IH end.
  now apply books_inv_add.
Qed.

Lemma books_inv_write isalnum hash output_path merge_option items : forall fs,
  books_inv items ->
  books_inv (fst (_write_loop isalnum hash output_path merge_option items fs)).
Proof.
  induction items as [|[h d] rest IH]; intros fs H; simpl; trivial.
  inversion H; subst. unfold _write_book.
  destruct (_get_title_author h) as [t a].
  match goal with |- context [_write_loop _ _ _ _ rest ?f] =>
    specialize (IH f); destruct (_write_loop isalnum hash output_path
                                   merge_option rest f) as [r f'] end.
  simpl in *. constructor; [|now apply IH]. simpl.
  destruct merge_option; trivial.
  destruct (fs _); trivial. now apply book_inv_merge.
Qed.

(** C5. Take any book record the Reader builds from an input, and merge
    into it the texts of any number of existing files. In the resulting
    dictionary no two blocks are equal, also after normalization (every
    stored block is canonical); inserting a block whose canonical form is
    present changes nothing, so the block stays where it first went in, and
    an absent one goes last. The same holds for every record of
    [self.books] after [_write]. *)
Theorem dedup_invariant
  (isalnum : char -> bool) (hash : str -> Z) (raw_input : str)
  (olds : list str) (header : str) (d : odict)
  (output_path : str) (merge_option : bool) (fs : filesystem) :
  In (header, d) (_read_loop isalnum (open_text raw_input) []) ->
  let d' := fold_left (fun d old => _merge_with_existing old d) olds d in
  NoDup d'
  /\ Forall canonical d'
  /\ NoDup (map _normalize_block d')
  /\ (forall b, In (_normalize_block b) d' ->
                setdefault (_normalize_block b) d' = d')
  /\ (forall b, ~ In (_normalize_block b) d' ->
                setdefault (_normalize_block b) d' = d' ++ [_normalize_block b])
  /\ books_inv (fst (_write_loop isalnum hash output_path merge_option
                       (_read_loop isalnum (open_text raw_input) []) fs)).
Proof.
  intros Hin d'.
  assert (Hread : books_inv (_read_loop isalnum (open_text raw_input) []))
    by (apply books_inv_read; constructor).
  assert (Hd : book_inv d).
  { unfold books_inv in Hread. rewrite Forall_forall in Hread.
    apply (Hread (header, d) Hin). }
  assert (Hd' : book_inv d').
  { unfold d'. clear Hin d'. revert d Hd.
    induction olds as [|o olds IH]; simpl; intros d Hd; trivial.
    apply IH. now apply book_inv_merge. }
  destruct Hd' as [ND F]. repeat split; trivial.
  - apply book_inv_normalized. now split.
  - intros b. apply setdefault_present.
  - intros b. apply setdefault_absent.
  - now apply books_inv_write.
Qed.

(* ===================================================================== *)
(** ** Reader *)
(* ===================================================================== *)

(** Every line of an open file holds a character: [readline] returns the
    empty string at the end of the file only. *)
Lemma readlines_nonempty s : forall cur,
  Forall (fun line => line <> []) (readlines_aux cur s).
Proof.
  induction s as [|x s IH]; simpl; intros cur.
  - destruct cur; repeat constructor. discriminate.
  - destruct (N.eqb x LF); [constructor|]; auto.
    destruct cur; discriminate.
Qed.

Lemma readline_end_of_file raw (infile : file) :
  Forall (fun line => line <> []) (open_text raw)
  /\ (Forall (fun line => line <> []) infile ->
      (fst (readline infile) = [] <-> infile = [])).
Proof.
  split; [apply readlines_nonempty|].
  intros H. destruct infile as [|l rest]; simpl; [tauto|].
  inversion H; subst. split; [tauto | discriminate].
Qed.

Lemma read_block_loop_spec infile : forall annotation,
  _read_block_loop infile annotation
  = (annotation ++ concat (map contribution (lines_of_block infile))
       ++ NEW_LINE,
     file_after_block infile).
Proof.
  induction infile as [|line rest IH]; intros annotation; simpl; trivial.
  unfold is_separator.
  destruct (str_eqb (strip line) SEPARATOR); simpl; trivial.
  assert (C : contribution line
              = match rstrip_chars CRLF line with
                | [] => []
                | _ :: _ => rstrip_chars CRLF line ++ NEW_LINE
                end) by reflexivity.
  rewrite C. clear C.
  destruct (rstrip_chars CRLF line) as [|c l]; simpl; rewrite IH.
  - now rewrite app_nil_r.
  - f_equal. rewrite <- !app_assoc. simpl. now rewrite <- !app_assoc.
Qed.

Lemma lines_of_block_prefix infile :
  Forall (fun l => is_separator l = false) (lines_of_block infile)
  /\ ((infile = lines_of_block infile /\ file_after_block infile = [])
      \/ exists sep, is_separator sep = true
           /\ infile = lines_of_block infile ++ sep :: file_after_block infile).
Proof.
  induction infile as [|line rest [IH1 IH2]]; simpl.
  - split; [constructor | left; auto].
  - destruct (is_separator line) eqn:E.
    + split; [constructor | right]. exists line. auto.
    + split; [constructor; trivial|].
      destruct IH2 as [[E1 E2]|(sep & S1 & S2)].
      * left. split; congruence.
      * right. exists sep. split; trivial. simpl. congruence.
Qed.

(** C6. The raw block [_read_block] returns is the concatenation, over the
    lines before the first separator line (or up to the end of the file),
    of nothing for an empty line (one that holds only its line terminator)
    and of the text of the line plus one line terminator for any other
    line, followed by one more line terminator. The file is left after the
    separator line. *)
Theorem read_block_is_concatenation (infile : file) :
  _read_block infile
  = (concat (map contribution (lines_of_block infile)) ++ NEW_LINE,
     file_after_block infile)
  /\ Forall (fun l => is_separator l = false) (lines_of_block infile)
  /\ ((infile = lines_of_block infile /\ file_after_block infile = [])
      \/ exists sep, is_separator sep = true
           /\ infile = lines_of_block infile ++ sep :: file_after_block infile).
Proof.
  split.
  - unfold _read_block. now rewrite read_block_loop_spec.
  - apply lines_of_block_prefix.
Qed.

(** C7. A header line that is empty once its line terminator and a leading
    non-alphanumeric character are gone is skipped and nothing else is
    consumed: the Reader goes on with the next line as a header line. *)
Theorem empty_header_consumes_nothing
  (isalnum : char -> bool) (header_line : str) (rest : file) (books : Books) :
  header_of_line isalnum header_line = [] ->
  _read_loop isalnum (header_line :: rest) books
  = _read_loop isalnum rest books.
Proof.
  intros E. rewrite _read_loop_equation_2. cbv zeta. now rewrite E.
Qed.

Lemma read_loop_valid_header isalnum header_line rest books :
  header_of_line isalnum header_line <> [] ->
  _read_loop isalnum (header_line :: rest) books
  = _read_loop isalnum (snd (_read_block rest))
      (add_annotation (header_of_line isalnum header_line)
         (_normalize_block (fst (_read_block rest))) books).
Proof.
  intros E. rewrite _read_loop_equation_2. cbv zeta.
  destruct (header_of_line isalnum header_line); [congruence | reflexivity].
Qed.

(* ===================================================================== *)
(** ** Writer *)
(* ===================================================================== *)

Lemma rfind_from_absent c s : forall i found,
  ~ In c s -> rfind_from c s i found = found.
Proof.
  induction s as [|x s IH]; simpl; intros i found H; trivial.
  rewrite IH by tauto.
  destruct (N.eqb x c) eqn:E; trivial.
  apply N.eqb_eq in E. tauto.
Qed.

Lemma rfind_from_last c pre post : forall i found,
  ~ In c post ->
  rfind_from c (pre ++ c :: post) i found = (i + Z.of_nat (length pre))%Z.
Proof.
  induction pre as [|x pre IH]; simpl; intros i found H.
  - rewrite N.eqb_refl, rfind_from_absent by trivial. lia.
  - rewrite IH by trivial. lia.
Qed.

Lemma rfind_last c pre post :
  ~ In c post -> rfind c (pre ++ c :: post) = Z.of_nat (length pre).
Proof. intros H. unfold rfind. now rewrite rfind_from_last. Qed.

Lemma rfind_from_spec c s : forall i found,
  (~ In c s /\ rfind_from c s i found = found)
  \/ exists pre post, s = pre ++ c :: post /\ ~ In c post
       /\ rfind_from c s i found = (i + Z.of_nat (length pre))%Z.
Proof.
  induction s as [|x s IH]; simpl; intros i found.
  - left. auto.
  - destruct (IH (i + 1)%Z (if N.eqb x c then i else found))
      as [[NI E]|(pre & post & E1 & NI & E2)].
    + destruct (N.eqb x c) eqn:Exc.
      * apply N.eqb_eq in Exc. subst x. right. exists [], s.
        repeat split; trivial. simpl. lia.
      * apply N.eqb_neq in Exc. left. split; [intuition congruence | trivial].
    + right. exists (x :: pre), post. subst s. repeat split; trivial.
      rewrite E2. simpl length. lia.
Qed.

Lemma slice_prefix n pre rest :
  n = Z.of_nat (length pre) -> slice 0 n (pre ++ rest) = pre.
Proof.
  intros ->. unfold slice. rewrite Nat2Z.id. simpl.
  rewrite firstn_app, Nat.sub_diag, firstn_all. simpl. apply app_nil_r.
Qed.

Lemma slice_middle a b pre mid rest :
  a = Z.of_nat (length pre) ->
  b = Z.of_nat (length pre + length mid) ->
  slice a b (pre ++ mid ++ rest) = mid.
Proof.
  intros -> ->. unfold slice. rewrite !Nat2Z.id.
  rewrite app_assoc, firstn_app, length_app, Nat.sub_diag. simpl.
  rewrite app_nil_r, firstn_all2 by (rewrite length_app; lia).
  rewrite skipn_app, Nat.sub_diag, skipn_all. reflexivity.
Qed.

Lemma last_parens_rfind header pre mid post :
  last_parens header pre mid post ->
  rfind LPAREN header = Z.of_nat (length pre)
  /\ rfind RPAREN header = Z.of_nat (length pre + 1 + length mid)
  /\ 0 < length pre.
Proof.
  intros (E & Hpre & H1 & H2 & H3). subst header. repeat split.
  - simpl. apply rfind_last. rewrite in_app_iff. simpl.
    intros [A|[A|A]]; [tauto | discriminate A | tauto].
  - replace (pre ++ [LPAREN] ++ mid ++ [RPAREN] ++ post)
      with ((pre ++ [LPAREN] ++ mid) ++ RPAREN :: post)
      by (now rewrite <- !app_assoc).
    rewrite rfind_last by trivial. rewrite !length_app. simpl. f_equal. lia.
  - destruct pre; simpl; [congruence | lia].
Qed.

Lemma rfind_last_parens header :
  (0 < rfind LPAREN header)%Z ->
  (rfind LPAREN header < rfind RPAREN header)%Z ->
  exists pre mid post, last_parens header pre mid post.
Proof.
  intros C1 C2. unfold rfind in *.
  destruct (rfind_from_spec LPAREN header 0 (-1))
    as [[_ E]|(pre & post1 & E1 & N1 & E1')]; [lia|].
  destruct (rfind_from_spec RPAREN header 0 (-1))
    as [[_ E]|(pre2 & post & E2 & N2 & E2')]; [lia|].
  rewrite E1' in C1, C2. rewrite E2' in C2.
  assert (E : pre ++ LPAREN :: post1 = pre2 ++ RPAREN :: post) by congruence.
  apply app_eq_app in E.
  destruct E as (l & [[Ea Eb]|[Ea Eb]]).
  - subst pre. rewrite length_app in C2. lia.
  - destruct l as [|x mid].
    + rewrite app_nil_r in Ea. subst pre2. lia.
    + simpl in Eb. injection Eb as Ex Ep. subst x post1.
      exists pre, mid, post. unfold last_parens.
      rewrite E1. rewrite in_app_iff in N1. simpl in N1.
      repeat split; try tauto.
      destruct pre; simpl in C1; [lia | congruence].
Qed.

Lemma title_author_parens header pre mid post :
  last_parens header pre mid post ->
  _get_title_author header = (strip pre, strip mid).
Proof.
  intros H. destruct (last_parens_rfind H) as (Ho & Hc & Hlen).
  destruct H as (E & _). unfold _get_title_author. rewrite Ho, Hc.
  replace ((0 <? Z.of_nat (length pre))%Z) with true
    by (symmetry; apply Z.ltb_lt; lia).
  replace ((Z.of_nat (length pre)
            <? Z.of_nat (length pre + 1 + length mid))%Z) with true
    by (symmetry; apply Z.ltb_lt; lia).
  simpl andb. cbv iota. subst header. f_equal.
  - f_equal. now apply slice_prefix.
  - f_equal.
    replace (pre ++ [LPAREN] ++ mid ++ [RPAREN] ++ post)
      with ((pre ++ [LPAREN]) ++ mid ++ [RPAREN] ++ post)
      by (now rewrite <- !app_assoc).
    apply slice_middle; rewrite length_app; simpl; lia.
Qed.

Lemma title_author_plain header :
  (forall pre mid post, ~ last_parens header pre mid post) ->
  _get_title_author header = (strip header, []).
Proof.
  intros Hno. unfold _get_title_author.
  destruct ((0 <? rfind LPAREN header)
            && (rfind LPAREN header <? rfind RPAREN header))%Z eqn:C; trivial.
  exfalso. apply andb_true_iff in C. destruct C as [C1 C2].
  apply Z.ltb_lt in C1, C2.
  destruct (rfind_last_parens header C1 C2) as (pre & mid & post & H).
  exact (Hno pre mid post H).
Qed.

(** The rule fixes one title and one author for every header. *)
Lemma title_author_rule_sound header :
  title_author_rule header (fst (_get_title_author header))
                           (snd (_get_title_author header)).
Proof.
  destruct ((0 <? rfind LPAREN header)
            && (rfind LPAREN header <? rfind RPAREN header))%Z eqn:C.
  - apply andb_true_iff in C. destruct C as [C1 C2].
    apply Z.ltb_lt in C1, C2.
    destruct (rfind_last_parens header C1 C2) as (pre & mid & post & H).
    rewrite (title_author_parens H). simpl. now apply rule_parens with post.
  - assert (Hno : forall pre mid post, ~ last_parens header pre mid post).
    { intros pre mid post H.
      destruct (last_parens_rfind H) as (Ho & Hc & Hlen).
      rewrite Ho, Hc in C. apply andb_false_iff in C.
      destruct C as [C|C]; apply Z.ltb_ge in C; lia. }
    rewrite (title_author_plain Hno). simpl. now apply rule_plain.
Qed.

Lemma title_author_rule_complete header title author :
  title_author_rule header title author ->
  _get_title_author header = (title, author).
Proof.
  intros [pre mid post H|H].
  - exact (title_author_parens H).
  - now apply title_author_plain.
Qed.

(** C8. With [(title, author)] given by the last-parenthesis rule, the file
    [_write] leaves for a book holds the line [title, author], an empty
    line, and then every block of the book's dictionary, in its order,
    each followed by one line terminator. In overwrite mode the
    dictionary is the one handed in. *)
Theorem written_file_content
  (isalnum : char -> bool) (hash : str -> Z) (output_path : str)
  (merge_option : bool) (raw_header : str) (d : odict) (fs : filesystem)
  (title author : str) :
  title_author_rule raw_header title author ->
  let fullpath :=
    os_path_join output_path (output_filename isalnum hash raw_header) in
  let out :=
    _write_book isalnum hash output_path merge_option raw_header d fs in
  _get_title_author raw_header = (title, author)
  /\ snd out fullpath
     = Some (title ++ text ", " ++ author ++ [LF] ++ [LF]
             ++ concat (map (fun b => b ++ [LF]) (fst out)))
  /\ snd (_write_book isalnum hash output_path false raw_header d fs) fullpath
     = Some (title ++ text ", " ++ author ++ [LF] ++ [LF]
             ++ concat (map (fun b => b ++ [LF]) d)).
Proof.
  intros R fullpath out. apply title_author_rule_complete in R.
  split; trivial. unfold out, fullpath, _write_book. rewrite R. simpl.
  rewrite !fs_write_same, !written_text_eq. auto.
Qed.

(** *** The name of the output file *)

Lemma text_inj (a b : string) : text a = text b -> a = b.
Proof.
  unfold text. intros H.
  rewrite <- (string_of_list_ascii_of_string a),
          <- (string_of_list_ascii_of_string b).
  f_equal. revert H.
  generalize (list_ascii_of_string a) (list_ascii_of_string b).
  intros la. induction la as [|x la IH]; intros [|y lb]; simpl;
    try discriminate; trivial.
  intros H. injection H as Hx Hl. f_equal; auto.
  rewrite <- (ascii_N_embedding x), <- (ascii_N_embedding y). now f_equal.
Qed.

Lemma str_of_int_inj (n m : Z) : str_of_int n = str_of_int m -> n = m.
Proof.
  unfold str_of_int. intros H. apply text_inj in H.
  apply DecimalZ.to_int_inj.
  assert (E : Some (Z.to_int n) = Some (Z.to_int m))
    by (rewrite <- !NilEmpty.isi; now f_equal).
  now injection E.
Qed.

(** The file name is a function of the header and of the hash the running
    process gives it. *)
Lemma output_filename_same_process isalnum hash (h1 h2 : str) :
  h1 = h2 -> output_filename isalnum hash h1 = output_filename isalnum hash h2.
Proof. now intros ->. Qed.

(** C1 fails on the code: the file name carries [hash(raw_header)], and two
    processes whose seeds give the header different hashes compute different
    file names for it. *)
Theorem output_filename_follows_hash
  (isalnum : char -> bool) (hash1 hash2 : str -> Z) (raw_header : str) :
  hash1 raw_header <> hash2 raw_header ->
  output_filename isalnum hash1 raw_header
  <> output_filename isalnum hash2 raw_header.
Proof.
  intros Hne E. unfold output_filename in E.
  apply app_inv_head in E. apply app_inv_head in E.
  apply app_inv_tail in E. apply str_of_int_inj in E. contradiction.
Qed.

(* ===================================================================== *)
(** ** The whole run *)
(* ===================================================================== *)

(** C9. When the input path names no file, [parse] raises
    [FileNotFoundError] out of [_read], before [_write] runs: the file
    system is the one it was given and the parser is unchanged, so a
    parser fresh from [__init__] still has no book. *)
Theorem missing_input_raises
  (isalnum : char -> bool) (hash : str -> Z)
  (self : AnnotationParser) (fs : filesystem) :
  fs (input_path self) = None ->
  parse isalnum hash self fs = (Raise FileNotFoundError, self, fs)
  /\ _read isalnum self fs = Raise FileNotFoundError
  /\ (forall input output merge,
        self = __init__ input output merge ->
        books self = [] /\ number_of_books self = 0).
Proof.
  intros H. unfold parse, _read. rewrite H. repeat split; subst; reflexivity.
Qed.

(* ===================================================================== *)
(** ** The way through the output file *)
(* ===================================================================== *)

Lemma no_linebreak_chars l c :
  has_no_linebreak l = true -> In c l -> is_linebreak c = false.
Proof.
  unfold has_no_linebreak. rewrite forallb_forall. intros H Hc.
  apply negb_true_iff. now apply H.
Qed.

Lemma universal_newlines_line l rest :
  has_no_linebreak l = true ->
  universal_newlines (l ++ LF :: rest) = l ++ LF :: universal_newlines rest.
Proof.
  induction l as [|x l IH]; simpl; intros H; trivial.
  apply andb_true_iff in H. destruct H as [Hx Hl].
  destruct (N.eqb x CR) eqn:E.
  - apply N.eqb_eq in E. subst x. discriminate Hx.
  - now rewrite IH.
Qed.

Lemma unlines_cons l ls : unlines (l :: ls) = l ++ LF :: unlines ls.
Proof. unfold unlines. simpl. now rewrite <- app_assoc. Qed.

Lemma unlines_app ls1 ls2 : unlines (ls1 ++ ls2) = unlines ls1 ++ unlines ls2.
Proof. unfold unlines. now rewrite map_app, concat_app. Qed.

Lemma universal_newlines_unlines ls :
  forallb has_no_linebreak ls = true ->
  universal_newlines (unlines ls) = unlines ls.
Proof.
  induction ls as [|l ls IH]; intros H; trivial.
  simpl in H. apply andb_true_iff in H. destruct H as [Hl Hls].
  rewrite unlines_cons, universal_newlines_line by trivial. now rewrite IH.
Qed.

Lemma splitlines_aux_line l rest : forall cur,
  has_no_linebreak l = true ->
  splitlines_aux cur (l ++ LF :: rest) = (cur ++ l) :: splitlines_aux [] rest.
Proof.
  induction l as [|x l IH]; simpl; intros cur H.
  - now rewrite app_nil_r.
  - apply andb_true_iff in H. destruct H as [Hx Hl].
    apply negb_true_iff in Hx. rewrite Hx, IH by trivial.
    now rewrite <- app_assoc.
Qed.

Lemma splitlines_unlines ls :
  forallb has_no_linebreak ls = true -> splitlines (unlines ls) = ls.
Proof.
  unfold splitlines. induction ls as [|l ls IH]; intros H; trivial.
  simpl in H. apply andb_true_iff in H. destruct H as [Hl Hls].
  rewrite unlines_cons, splitlines_aux_line by trivial. simpl. now rewrite IH.
Qed.

Lemma split_aux_last l : forall cur,
  ~ In LF l -> split_aux LF cur l = [cur ++ l].
Proof.
  induction l as [|x l IH]; simpl; intros cur H.
  - now rewrite app_nil_r.
  - destruct (N.eqb x LF) eqn:E.
    + apply N.eqb_eq in E. tauto.
    + rewrite IH by tauto. now rewrite <- app_assoc.
Qed.

Lemma split_aux_line l rest : forall cur,
  ~ In LF l ->
  split_aux LF cur (l ++ LF :: rest) = (cur ++ l) :: split_aux LF [] rest.
Proof.
  induction l as [|x l IH]; simpl; intros cur H.
  - now rewrite app_nil_r.
  - destruct (N.eqb x LF) eqn:E.
    + apply N.eqb_eq in E. tauto.
    + rewrite IH by tauto. now rewrite <- app_assoc.
Qed.

Lemma split_join ls :
  ls <> [] -> Forall (fun l => ~ In LF l) ls ->
  split LF (join NEW_LINE ls) = ls.
Proof.
  unfold split. induction ls as [|l ls IH]; intros Hne H; [congruence|].
  inversion H; subst. destruct ls as [|l' ls].
  - simpl. now apply split_aux_last.
  - change (join NEW_LINE (l :: l' :: ls))
      with (l ++ LF :: join NEW_LINE (l' :: ls)).
    rewrite split_aux_line by trivial. simpl app. f_equal.
    apply IH; [discriminate | trivial].
Qed.

Lemma join_unlines ls :
  ls <> [] -> join NEW_LINE ls ++ NEW_LINE = unlines ls.
Proof.
  induction ls as [|l ls IH]; intros Hne; [congruence|].
  destruct ls as [|l' ls].
  - unfold unlines. simpl. now rewrite app_nil_r.
  - change (join NEW_LINE (l :: l' :: ls))
      with (l ++ LF :: join NEW_LINE (l' :: ls)).
    rewrite unlines_cons, <- IH by discriminate.
    now rewrite <- app_assoc.
Qed.

Lemma split_loop_plain ls : forall rest blocks current_block,
  forallb plain_line ls = true ->
  _split_loop (ls ++ rest) blocks current_block
  = _split_loop rest blocks (current_block ++ ls).
Proof.
  induction ls as [|l ls IH]; simpl; intros rest blocks cur H.
  - now rewrite app_nil_r.
  - apply andb_true_iff in H. destruct H as [Hl Hls].
    unfold plain_line in Hl. apply andb_true_iff in Hl.
    destruct Hl as [_ Hl]. apply negb_true_iff in Hl. rewrite Hl.
    rewrite IH by trivial. now rewrite <- app_assoc.
Qed.

Lemma plain_block_kept ls :
  ls <> [] -> forallb plain_line ls = true -> kept ls = true.
Proof.
  intros Hne H. destruct ls as [|l ls]; [congruence|].
  simpl in H. apply andb_true_iff in H. destruct H as [Hl _].
  unfold plain_line in Hl. apply andb_true_iff in Hl. destruct Hl as [_ Hl].
  unfold kept. apply negb_true_iff, str_eqb_neq.
  rewrite unlines_cons. destruct l as [|c l]; [discriminate Hl|].
  intros E. simpl in E. injection E as _ E. destruct l; discriminate E.
Qed.

Lemma split_loop_written lss : forall blocks,
  Forall block_lines_ok lss ->
  _split_loop (concat (map (fun ls => ls ++ [[]]) lss)) blocks []
  = (blocks ++ map unlines (filter kept lss), []).
Proof.
  induction lss as [|ls lss IH]; simpl; intros blocks H.
  - now rewrite app_nil_r.
  - inversion H as [|? ? [Hls|[Hne Hls]] Hrest]; subst.
    + simpl. now rewrite IH.
    + rewrite <- app_assoc, split_loop_plain by trivial. simpl.
      rewrite plain_block_kept by trivial. simpl.
      destruct ls as [|l ls]; [congruence|].
      rewrite IH by trivial. rewrite join_unlines by discriminate.
      now rewrite <- app_assoc.
Qed.

Lemma In_lstrip_with p c s : In c (lstrip_with p s) -> In c s.
Proof.
  induction s as [|x s IH]; simpl; trivial.
  destruct (p x); simpl; tauto.
Qed.

Lemma In_rstrip_with p c s : In c (rstrip_with p s) -> In c s.
Proof.
  unfold rstrip_with. intros H. apply in_rev in H.
  apply In_lstrip_with in H. now apply in_rev.
Qed.

Lemma In_strip c s : In c (strip s) -> In c s.
Proof.
  unfold strip. intros H. now apply In_rstrip_with, In_lstrip_with in H.
Qed.

Lemma In_slice a b c s : In c (slice a b s) -> In c s.
Proof.
  unfold slice. intros H.
  rewrite <- (firstn_skipn (Z.to_nat b) s). apply in_or_app. left.
  rewrite <- (firstn_skipn (Z.to_nat a) (firstn (Z.to_nat b) s)).
  apply in_or_app. now right.
Qed.

Lemma forallb_sub (p : char -> bool) (s s' : str) :
  (forall c, In c s' -> In c s) -> forallb p s = true -> forallb p s' = true.
Proof. rewrite !forallb_forall. auto. Qed.

Lemma title_line_no_linebreak header :
  has_no_linebreak header = true ->
  has_no_linebreak (fst (_get_title_author header) ++ text ", "
                    ++ snd (_get_title_author header)) = true.
Proof.
  intros H. unfold has_no_linebreak in *. rewrite !forallb_app.
  unfold _get_title_author.
  destruct ((0 <? rfind LPAREN header)
            && (rfind LPAREN header <? rfind RPAREN header))%Z; simpl;
    rewrite ?andb_true_r;
    repeat (try apply andb_true_iff; try split);
    try (eapply forallb_sub; [|exact H]; intros c Hc;
         apply In_strip in Hc; try apply In_slice in Hc; exact Hc).
Qed.

Lemma recoverable_lines d :
  Forall recoverable d ->
  exists lss, Forall block_lines_ok lss /\ d = map unlines lss.
Proof.
  induction 1 as [|b d [_ (ls & Hls & ->)] _ (lss & Hlss & ->)].
  - exists []. split; [constructor | reflexivity].
  - exists (ls :: lss). split; [now constructor | reflexivity].
Qed.

Lemma block_lines_no_linebreak ls :
  block_lines_ok ls -> forallb has_no_linebreak (ls ++ [[]]) = true.
Proof.
  intros [->|[_ H]]; trivial.
  rewrite forallb_app, andb_true_r. rewrite forallb_forall in *.
  intros l Hl. specialize (H l Hl). unfold plain_line in H.
  now apply andb_true_iff in H.
Qed.

Lemma written_lines_no_linebreak lss :
  Forall block_lines_ok lss ->
  forallb has_no_linebreak (concat (map (fun ls => ls ++ [[]]) lss)) = true.
Proof.
  induction 1 as [|ls lss H _ IH]; trivial.
  simpl map. simpl concat. rewrite forallb_app.
  apply andb_true_iff. split; [now apply block_lines_no_linebreak | exact IH].
Qed.

Lemma written_text_lines title author lss :
  written_text title author (map unlines lss)
  = unlines ((title ++ text ", " ++ author) :: []
             :: concat (map (fun ls => ls ++ [[]]) lss)).
Proof.
  rewrite written_text_eq, !unlines_cons. rewrite <- !app_assoc.
  do 3 f_equal. simpl. do 2 f_equal.
  induction lss as [|ls lss IH]; trivial.
  simpl. rewrite IH, !unlines_app. unfold unlines at 3. simpl.
  now rewrite <- !app_assoc.
Qed.

Lemma filter_map (A B : Type) (p : B -> bool) (f : A -> B) l :
  filter p (map f l) = map f (filter (fun x => p (f x)) l).
Proof.
  induction l as [|a l IH]; simpl; trivial.
  destruct (p (f a)); simpl; now rewrite IH.
Qed.

Lemma read_written_blocks title author lss :
  has_no_linebreak (title ++ text ", " ++ author) = true ->
  Forall block_lines_ok lss ->
  _read_existing_blocks (written_text title author (map unlines lss))
  = map unlines (filter kept lss).
Proof.
  intros HT H. rewrite written_text_lines.
  pose proof (written_lines_no_linebreak H) as Hflat.
  unfold _read_existing_blocks, read_text.
  assert (Hall : forallb has_no_linebreak
                   ((title ++ text ", " ++ author) :: []
                    :: concat (map (fun ls => ls ++ [[]]) lss)) = true).
  { cbn [forallb]. apply andb_true_iff. split; [exact HT | exact Hflat]. }
  rewrite universal_newlines_unlines, splitlines_unlines by exact Hall.
  cbn [nth_error]. change (is_empty (strip [])) with true. cbv iota.
  change (1 + 1) with 2. cbn [skipn].
  unfold _split_into_blocks.
  destruct (concat (map (fun ls => ls ++ [[]]) lss)) as [|l0 flat] eqn:E.
  - destruct lss as [|ls lss]; [reflexivity|].
    simpl in E. destruct ls; discriminate E.
  - rewrite split_join; [|discriminate|].
    + rewrite <- E, split_loop_written by trivial. reflexivity.
    + apply Forall_forall. intros l Hl Hin.
      rewrite forallb_forall in Hflat.
      pose proof (@no_linebreak_chars l LF (Hflat l Hl) Hin) as C.
      discriminate C.
Qed.

Lemma fold_setdefault_present bs : forall d,
  Forall (fun b => In b d) bs ->
  fold_left (fun d b => setdefault b d) bs d = d.
Proof.
  induction bs as [|b bs IH]; simpl; intros d H; trivial.
  inversion H; subst. rewrite setdefault_present by trivial. now apply IH.
Qed.

(** C3, as it holds on the code. Take a header without line boundaries and
    a dictionary of canonical blocks, each the empty block or made of lines
    that hold some character other than white space and no line boundary.
    Reading back the text [_write] produces for them and normalizing gives
    the blocks written, in order, except the empty block, which is not
    recovered; and merging that text into the dictionary leaves the
    dictionary as it is. *)
Theorem written_blocks_are_recovered (raw_header : str) (d : odict) :
  has_no_linebreak raw_header = true ->
  Forall recoverable d ->
  let title := fst (_get_title_author raw_header) in
  let author := snd (_get_title_author raw_header) in
  let raw := written_text title author d in
  map _normalize_block (_read_existing_blocks raw)
  = filter (fun b => negb (str_eqb b NEW_LINE)) d
  /\ _merge_with_existing raw d = d.
Proof.
  intros Hh Hd title author raw.
  assert (Hcan : Forall canonical d).
  { eapply Forall_impl; [|exact Hd]. now intros b [C _]. }
  destruct (recoverable_lines Hd) as (lss & Hlss & E).
  assert (Hread : _read_existing_blocks raw
                  = filter (fun b => negb (str_eqb b NEW_LINE)) d).
  { unfold raw. rewrite E, read_written_blocks; trivial.
    - now rewrite filter_map.
    - now apply title_line_no_linebreak. }
  assert (Hnorm : map _normalize_block (_read_existing_blocks raw)
                  = filter (fun b => negb (str_eqb b NEW_LINE)) d).
  { rewrite Hread. rewrite <- (map_id (filter _ d)) at 2.
    apply map_ext_in. intros b Hb. apply filter_In in Hb.
    rewrite Forall_forall in Hcan. now apply Hcan. }
  split; trivial.
  rewrite merge_as_fold, Hnorm. apply fold_setdefault_present.
  apply Forall_forall. intros b Hb. now apply filter_In in Hb.
Qed.

(* ===================================================================== *)
(** ** The properties at work on sample data *)
(* ===================================================================== *)

(** The end-to-end example: two equal entries give one file with one
    block, under the line [My Book, Jane Doe]. *)
Example end_to_end :
  let '(outcome, self, fs) :=
    parse ascii_isalnum (const_hash 7)
          (__init__ (text "clippings.txt") (text "out") true) sample_fs in
  outcome = Ok tt
  /\ number_of_books self = 1
  /\ fs (text "out/My Book_7.txt")
     = Some (text "My Book, Jane Doe" ++ [LF; LF] ++ sample_block ++ [LF]).
Proof. vm_compute. auto. Qed.

(** Merge mode puts the block of the run before the one only the old file
    has; overwrite mode writes the block of the run alone. *)
Example merge_then_overwrite :
  _merge_with_existing sample_old_file [sample_block]
  = [sample_block; text "An older note." ++ [LF]]
  /\ fst (_write_book ascii_isalnum (const_hash 7) (text "out") false
            sample_header [sample_block]
            (fs_write (text "out/My Book_7.txt") sample_old_file no_files))
     = [sample_block].
Proof. vm_compute. auto. Qed.

(** A line of white space is not empty: [_read_block] keeps it. *)
Example white_line_contributes :
  contribution (text "  " ++ [LF]) = text "  " ++ [LF].
Proof. reflexivity. Qed.

(** After an empty header line the text of the entry is read as a header,
    and the separator that follows gives it the empty block. *)
Example empty_header_desynchronizes :
  _read_loop ascii_isalnum
    (open_text ([LF] ++ text "a note" ++ [LF] ++ SEPARATOR ++ [LF]
                ++ sample_header ++ [LF] ++ sample_block ++ SEPARATOR ++ [LF]))
    []
  = [(text "a note", [NEW_LINE]); (sample_header, [sample_block])].
Proof. vm_compute. reflexivity. Qed.

(** The rule looks at the last [(] and the last [)] only. *)
Example last_parenthesis_only :
  _get_title_author (text "A (B) (C") = (text "A (B) (C", [])
  /\ _get_title_author (text "A (B) C)") = (text "A", text "B) C")
  /\ _get_title_author (text "(B)") = (text "(B)", []).
Proof. vm_compute. auto. Qed.

(** C3 fails on the code: the empty block is canonical and is written, and
    reading the file back does not give it. *)
Lemma empty_block_is_not_recovered :
  canonical NEW_LINE
  /\ map _normalize_block
       (_read_existing_blocks
          (written_text (fst (_get_title_author sample_header))
                        (snd (_get_title_author sample_header)) [NEW_LINE]))
     <> [NEW_LINE].
Proof. split; [reflexivity | vm_compute; discriminate]. Qed.

(** A block with a line of white space inside comes back as two blocks,
    and merging the written file adds them. *)
Example white_line_splits_block :
  let b := text "one" ++ [LF] ++ text " " ++ [LF] ++ text "two" ++ [LF] in
  canonical b
  /\ _merge_with_existing
       (written_text (text "My Book") (text "Jane Doe") [b]) [b]
     = [b; text "one" ++ [LF]; text "two" ++ [LF]].
Proof. split; vm_compute; reflexivity. Qed.

(** A form feed inside a line is a boundary for [splitlines] only. *)
Example form_feed_splits_block :
  let b := text "one" ++ [12%N] ++ text "two" ++ [LF] in
  canonical b
  /\ _merge_with_existing
       (written_text (text "My Book") (text "Jane Doe") [b]) [b]
     = [b; text "one" ++ [LF] ++ text "two" ++ [LF]].
Proof. split; vm_compute; reflexivity. Qed.

Lemma output_filename_follows_hash_witness :
  output_filename ascii_isalnum (const_hash 1) sample_header
  <> output_filename ascii_isalnum (const_hash 2) sample_header.
Proof.
  apply (@output_filename_follows_hash ascii_isalnum (const_hash 1)
           (const_hash 2) sample_header).
  vm_compute. discriminate.
Defined.

Lemma written_blocks_are_recovered_witness :
  let d := [sample_block; NEW_LINE;
            text "two" ++ [LF] ++ text "lines" ++ [LF]] in
  _merge_with_existing
    (written_text (text "My Book") (text "Jane Doe") d) d = d.
Proof.
  refine (proj2 (@written_blocks_are_recovered sample_header
                   [sample_block; NEW_LINE;
                    text "two" ++ [LF] ++ text "lines" ++ [LF]] _ _)).
  - vm_compute. reflexivity.
  - repeat constructor; try (vm_compute; reflexivity).
    + exists [text "This is a highlight."]. split; [right|]; auto.
      split; [discriminate | vm_compute; reflexivity].
    + exists [[]]. split; [left|]; reflexivity.
    + exists [text "two"; text "lines"]. split; [right|]; auto.
      split; [discriminate | vm_compute; reflexivity].
Defined.

Lemma dedup_invariant_witness :
  In (sample_header, [sample_block])
     (_read_loop ascii_isalnum (open_text sample_clippings) [])
  /\ NoDup (fold_left (fun d old => _merge_with_existing old d)
              [sample_old_file] [sample_block]).
Proof.
  assert (H : In (sample_header, [sample_block])
                 (_read_loop ascii_isalnum (open_text sample_clippings) []))
    by (vm_compute; left; reflexivity).
  split; [exact H|].
  exact (proj1 (@dedup_invariant ascii_isalnum (const_hash 7)
                  sample_clippings [sample_old_file] sample_header
                  [sample_block] (text "out") true no_files H)).
Defined.

Lemma empty_header_consumes_nothing_witness :
  _read_loop ascii_isalnum [text "-" ++ [LF]; sample_header ++ [LF]] []
  = _read_loop ascii_isalnum [sample_header ++ [LF]] [].
Proof.
  apply (@empty_header_consumes_nothing ascii_isalnum (text "-" ++ [LF])
           [sample_header ++ [LF]] []).
  vm_compute. reflexivity.
Defined.

Lemma written_file_content_witness :
  snd (_write_book ascii_isalnum (const_hash 7) (text "out") false
         sample_header [sample_block] no_files)
      (text "out/My Book_7.txt")
  = Some (text "My Book, Jane Doe" ++ [LF; LF] ++ sample_block ++ [LF]).
Proof.
  assert (R : title_author_rule sample_header
                (text "My Book") (text "Jane Doe")).
  { apply (@rule_parens sample_header (text "My Book ") (text "Jane Doe") []).
    repeat split; try discriminate; try (vm_compute; intuition discriminate). }
  exact (proj1 (proj2 (@written_file_content ascii_isalnum (const_hash 7)
                         (text "out") false sample_header [sample_block]
                         no_files _ _ R))).
Defined.

Lemma missing_input_raises_witness :
  parse ascii_isalnum (const_hash 7)
        (__init__ (text "clippings.txt") (text "out") true) no_files
  = (Raise FileNotFoundError,
     __init__ (text "clippings.txt") (text "out") true, no_files).
Proof.
  refine (proj1 (@missing_input_raises ascii_isalnum (const_hash 7)
                   (__init__ (text "clippings.txt") (text "out") true)
                   no_files _)).
  reflexivity.
Defined.

(* ===================================================================== *)
(** ** Further properties: Normalizer *)
(* ===================================================================== *)

Lemma lstrip_with_all p w : forall t,
  forallb p w = true -> lstrip_with p (w ++ t) = lstrip_with p t.
Proof.
  induction w as [|c w IH]; simpl; intros t H; trivial.
  apply andb_true_iff in H. destruct H as [Hc Hw]. rewrite Hc. now apply IH.
Qed.

Lemma forallb_rev (p : char -> bool) w :
  forallb p w = true -> forallb p (rev w) = true.
Proof.
  rewrite !forallb_forall. intros H x Hx. apply H. now apply in_rev.
Qed.

Lemma rstrip_with_all p s w :
  forallb p w = true -> rstrip_with p (s ++ w) = rstrip_with p s.
Proof.
  intros H. unfold rstrip_with. rewrite rev_app_distr.
  now rewrite lstrip_with_all by now apply forallb_rev.
Qed.

Lemma normalize_trailing_space s ws :
  forallb is_space ws = true -> _normalize_block (s ++ ws) = _normalize_block s.
Proof.
  intros H. unfold _normalize_block, rstrip. now rewrite rstrip_with_all.
Qed.

(** X1. Two texts have the same canonical form exactly when they differ
    in trailing white space only. *)
Theorem normalize_equal_iff (a b : str) :
  _normalize_block a = _normalize_block b
  <-> exists body wa wb,
        a = body ++ wa /\ b = body ++ wb
        /\ forallb is_space wa = true /\ forallb is_space wb = true.
Proof.
  split.
  - intros E. unfold _normalize_block in E. apply app_inv_tail in E.
    destruct (rstrip_with_split is_space a) as (wa & Ea & Fa & _).
    destruct (rstrip_with_split is_space b) as (wb & Eb & Fb & _).
    exists (rstrip a), wa, wb. repeat split; trivial.
    rewrite E. exact Eb.
  - intros (body & wa & wb & -> & -> & Fa & Fb).
    now rewrite !normalize_trailing_space.
Qed.

(* ===================================================================== *)
(** ** Further properties: the books of the Reader *)
(* ===================================================================== *)

Lemma str_eqb_sym a b : str_eqb a b = str_eqb b a.
Proof.
  destruct (str_eqb a b) eqn:E; symmetry.
  - apply str_eqb_eq in E. subst. apply str_eqb_refl.
  - apply str_eqb_neq. apply str_eqb_neq in E. congruence.
Qed.

Lemma books_mem_In header books :
  books_mem header books = true <-> In header (map fst books).
Proof.
  induction books as [|[k d] rest IH]; simpl.
  - split; [discriminate | tauto].
  - rewrite orb_true_iff, IH, str_eqb_eq. tauto.
Qed.

Lemma books_mem_get header books :
  books_mem header books = false <-> books_get header books = None.
Proof.
  induction books as [|[k d] rest IH]; simpl; [tauto|].
  destruct (str_eqb k header); simpl; trivial. split; discriminate.
Qed.

Lemma books_set_new header d books :
  books_mem header books = false ->
  books_set header d books = books ++ [(header, d)].
Proof.
  induction books as [|[k d0] rest IH]; simpl; trivial.
  destruct (str_eqb k header); simpl; [discriminate|].
  intros H. now rewrite IH.
Qed.

Lemma books_mutate_absent header f books :
  books_mem header books = false -> books_mutate header f books = books.
Proof.
  induction books as [|[k d0] rest IH]; simpl; trivial.
  destruct (str_eqb k header); simpl; [discriminate|].
  intros H. now rewrite IH.
Qed.

Lemma books_mutate_app header f b1 b2 :
  books_mem header b1 = false ->
  books_mutate header f (b1 ++ b2) = b1 ++ books_mutate header f b2.
Proof.
  induction b1 as [|[k d0] rest IH]; simpl; trivial.
  destruct (str_eqb k header); simpl; [discriminate|].
  intros H. now rewrite IH.
Qed.

(** The insertion of the Reader, by cases on the header. *)
Lemma add_annotation_new header block books :
  books_mem header books = false ->
  add_annotation header block books = books ++ [(header, [block])].
Proof.
  intros H. unfold add_annotation. rewrite H, books_set_new by trivial.
  rewrite books_mutate_app by trivial. simpl. now rewrite str_eqb_refl.
Qed.

Lemma add_annotation_old header block books :
  books_mem header books = true ->
  add_annotation header block books
  = books_mutate header (setdefault block) books.
Proof. intros H. unfold add_annotation. now rewrite H. Qed.

Lemma books_get_mutate header f books :
  books_get header (books_mutate header f books)
  = option_map f (books_get header books).
Proof.
  induction books as [|[k d] rest IH]; simpl; trivial.
  destruct (str_eqb k header) eqn:E; simpl; now rewrite E.
Qed.

Lemma books_get_mutate_other header other f books :
  other <> header ->
  books_get other (books_mutate header f books) = books_get other books.
Proof.
  intros Hne. induction books as [|[k d] rest IH]; simpl; trivial.
  destruct (str_eqb k header) eqn:E; simpl.
  - apply str_eqb_eq in E. subst k.
    destruct (str_eqb header other) eqn:E1; trivial.
    apply str_eqb_eq in E1. congruence.
  - now rewrite IH.
Qed.

Lemma books_get_app header b1 b2 :
  books_get header (b1 ++ b2)
  = match books_get header b1 with
    | Some d => Some d
    | None => books_get header b2
    end.
Proof.
  induction b1 as [|[k d] rest IH]; simpl; trivial.
  now destruct (str_eqb k header).
Qed.

Lemma setdefault_In block d : In block (setdefault block d).
Proof.
  unfold setdefault. destruct (odict_mem block d) eqn:E.
  - now apply odict_mem_In.
  - apply in_or_app. right. now left.
Qed.

(** X2. After the Reader inserts a block under a header, looking the header
    up gives the dictionary it had (the empty one for a new header) with
    the block inserted, so the block is in it; every other header gives
    what it gave before. *)
Theorem lookup_after_insertion (header block : str) (books : Books) :
  books_get header (add_annotation header block books)
  = Some (setdefault block
            (match books_get header books with Some d => d | None => [] end))
  /\ (exists d, books_get header (add_annotation header block books) = Some d
                /\ In block d)
  /\ (forall other, other <> header ->
        books_get other (add_annotation header block books)
        = books_get other books).
Proof.
  assert (E : books_get header (add_annotation header block books)
              = Some (setdefault block
                        (match books_get header books with
                         | Some d => d | None => [] end))).
  { destruct (books_mem header books) eqn:M.
    - rewrite add_annotation_old, books_get_mutate by trivial.
      destruct (books_get header books) eqn:G; trivial.
      apply books_mem_get in G. congruence.
    - rewrite add_annotation_new by trivial.
      pose proof M as G. apply books_mem_get in G.
      rewrite books_get_app, G. simpl. now rewrite str_eqb_refl. }
  split; [exact E|]. split.
  - eexists. split; [exact E | apply setdefault_In].
  - intros other Hne. destruct (books_mem header books) eqn:M.
    + rewrite add_annotation_old by trivial.
      now apply books_get_mutate_other.
    + rewrite add_annotation_new, books_get_app by trivial.
      destruct (books_get other books); trivial. simpl.
      destruct (str_eqb header other) eqn:E1; trivial.
      apply str_eqb_eq in E1. congruence.
Qed.

Lemma books_mem_mutate header other f books :
  books_mem other (books_mutate header f books) = books_mem other books.
Proof.
  induction books as [|[k d] rest IH]; simpl; trivial.
  destruct (str_eqb k header); simpl; trivial. now rewrite IH.
Qed.

Lemma books_mutate_twice header f g books :
  books_mutate header f (books_mutate header g books)
  = books_mutate header (fun d => f (g d)) books.
Proof.
  induction books as [|[k d] rest IH]; simpl; trivial.
  destruct (str_eqb k header) eqn:E; simpl; rewrite E; trivial.
  now rewrite IH.
Qed.

Lemma books_mutate_ext header f g books :
  (forall d, f d = g d) ->
  books_mutate header f books = books_mutate header g books.
Proof.
  intros H. induction books as [|[k d] rest IH]; simpl; trivial.
  destruct (str_eqb k header); [now rewrite H | now rewrite IH].
Qed.

Lemma setdefault_twice block d :
  setdefault block (setdefault block d) = setdefault block d.
Proof. apply setdefault_present, setdefault_In. Qed.

Lemma add_annotation_mem header block books :
  books_mem header (add_annotation header block books) = true.
Proof.
  destruct (books_mem header books) eqn:M.
  - now rewrite add_annotation_old, books_mem_mutate.
  - rewrite add_annotation_new by trivial. apply books_mem_In.
    rewrite map_app. apply in_or_app. right. now left.
Qed.

(** Inserting the same block under the same header again changes nothing. *)
Lemma add_annotation_twice (header block : str) (books : Books) :
  add_annotation header block (add_annotation header block books)
  = add_annotation header block books.
Proof.
  rewrite (@add_annotation_old header block _
             (add_annotation_mem header block books)).
  destruct (books_mem header books) eqn:M.
  - rewrite add_annotation_old, books_mutate_twice by trivial.
    apply books_mutate_ext. intros d. apply setdefault_twice.
  - rewrite add_annotation_new by trivial.
    rewrite books_mutate_app by trivial. simpl.
    rewrite str_eqb_refl. rewrite setdefault_present by now left.
    reflexivity.
Qed.

Lemma extends_refl books : extends books books.
Proof.
  induction books as [|[h d] rest IH]; [constructor|].
  rewrite <- (app_nil_r d) at 2. now constructor.
Qed.

Lemma extends_trans b1 b2 b3 : extends b1 b2 -> extends b2 b3 -> extends b1 b3.
Proof.
  intros H. revert b3. induction H as [|h d d' r r' H IH]; intros b3 H23.
  - constructor.
  - inversion H23; subst. rewrite <- app_assoc. constructor. now apply IH.
Qed.

Lemma extends_app books extra : extends books (books ++ extra).
Proof.
  induction books as [|[h d] rest IH]; simpl; [constructor|].
  rewrite <- (app_nil_r d) at 2. now constructor.
Qed.

Lemma extends_mutate header f books :
  (forall d, exists d', f d = d ++ d') ->
  extends books (books_mutate header f books).
Proof.
  intros Hf. induction books as [|[k d] rest IH]; simpl; [constructor|].
  destruct (str_eqb k header).
  - destruct (Hf d) as [d' ->]. constructor. apply extends_refl.
  - rewrite <- (app_nil_r d) at 2. now constructor.
Qed.

Lemma setdefault_appends block d : exists d', setdefault block d = d ++ d'.
Proof.
  unfold setdefault. destruct (odict_mem block d).
  - exists []. now rewrite app_nil_r.
  - now exists [block].
Qed.

Lemma extends_add header block books :
  extends books (add_annotation header block books).
Proof.
  destruct (books_mem header books) eqn:M.
  - rewrite add_annotation_old by trivial.
    apply extends_mutate. intros d. apply setdefault_appends.
  - rewrite add_annotation_new by trivial. apply extends_app.
Qed.

Lemma extends_read isalnum infile books :
  extends books (_read_loop isalnum infile books).
Proof.
  funelim (_read_loop isalnum infile books); [apply extends_refl|].
  destruct (is_empty (header_of_line isalnum header_line)); trivial.
  eapply extends_trans; [apply extends_add|].
  match goal with IH : extends _ (_read_loop _ (snd _) _) |- _ => exact IH end.
Qed.

Lemma extends_keys b b' :
  extends b b' -> exists extra, map fst b' = map fst b ++ extra.
Proof.
  induction 1 as [b'|h d d' r r' H [extra IH]].
  - now exists (map fst b').
  - exists extra. simpl. now rewrite IH.
Qed.

Lemma extends_get b b' header d :
  extends b b' -> books_get header b = Some d ->
  exists d', books_get header b' = Some (d ++ d').
Proof.
  induction 1 as [b'|h d0 d0' r r' H IH]; simpl; [discriminate|].
  destruct (str_eqb h header).
  - intros E. injection E as ->. now exists d0'.
  - exact IH.
Qed.

Lemma odict_mem_keys header books :
  odict_mem header (map fst books) = books_mem header books.
Proof.
  induction books as [|[k d] rest IH]; simpl; trivial.
  unfold odict_mem in *. simpl. now rewrite IH, str_eqb_sym.
Qed.

Lemma add_annotation_keys header block books :
  map fst (add_annotation header block books)
  = setdefault header (map fst books).
Proof.
  unfold setdefault. rewrite odict_mem_keys.
  destruct (books_mem header books) eqn:M.
  - rewrite add_annotation_old by trivial. clear M.
    induction books as [|[k d] rest IH]; simpl; trivial.
    destruct (str_eqb k header); simpl; trivial. now rewrite IH.
  - rewrite add_annotation_new by trivial. now rewrite map_app.
Qed.

Lemma headers_in_block isalnum rest :
  headers_from isalnum true rest
  = headers_from isalnum false (file_after_block rest).
Proof.
  induction rest as [|line rest IH]; simpl; trivial.
  now destruct (is_separator line).
Qed.

Lemma read_block_rest infile : snd (_read_block infile) = file_after_block infile.
Proof. unfold _read_block. now rewrite read_block_loop_spec. Qed.

(** The headers after reading: those before, then each header of the file
    inserted in turn. *)
Lemma read_loop_keys isalnum infile books :
  map fst (_read_loop isalnum infile books)
  = fold_left (fun keys header => setdefault header keys)
              (entry_headers isalnum infile) (map fst books).
Proof.
  unfold entry_headers.
  funelim (_read_loop isalnum infile books); [reflexivity|].
  cbn [headers_from].
  destruct (header_of_line isalnum header_line) as [|c h] eqn:E; simpl.
  - assumption.
  - match goal with IH : map fst (_read_loop _ (snd _) _) = _ |- _ =>
      rewrite IH end.
    now rewrite read_block_rest, headers_in_block, add_annotation_keys.
Qed.

(** X4. Reading only adds to [self.books]: the books it held keep their
    places, and the new headers come after them in the order in which the
    entries of the file first show them, each once; the blocks a book held
    keep their places, new ones after them. *)
Theorem reading_only_appends
  (isalnum : char -> bool) (infile : file) (books : Books) :
  let after := _read_loop isalnum infile books in
  extends books after
  /\ (exists new_headers, map fst after = map fst books ++ new_headers)
  /\ (forall header d, books_get header books = Some d ->
        exists new_blocks, books_get header after = Some (d ++ new_blocks))
  /\ map fst after
     = map fst books
       ++ keep_first
            (filter (fun header => negb (odict_mem header (map fst books)))
                    (entry_headers isalnum infile))
  /\ map fst (_read_loop isalnum infile [])
     = keep_first (entry_headers isalnum infile).
Proof.
  intros after. pose proof (extends_read isalnum infile books) as H.
  split; [exact H|]. split; [|split; [|split]].
  - now apply extends_keys.
  - intros header d. now apply extends_get.
  - unfold after. rewrite read_loop_keys. apply fold_setdefault.
  - rewrite read_loop_keys, fold_setdefault. simpl. f_equal.
    apply filter_all. reflexivity.
Qed.

Lemma books_mutate_keys header f books :
  map fst (books_mutate header f books) = map fst books.
Proof.
  induction books as [|[k d] rest IH]; simpl; trivial.
  destruct (str_eqb k header); simpl; trivial. now rewrite IH.
Qed.

Lemma keys_inv_add header block books :
  header <> [] -> keys_inv books ->
  keys_inv (add_annotation header block books).
Proof.
  intros Hh [ND F]. destruct (books_mem header books) eqn:M.
  - rewrite add_annotation_old by trivial. split.
    + now rewrite books_mutate_keys.
    + clear ND M. induction books as [|[k d] rest IH]; simpl; trivial.
      inversion F; subst.
      destruct (str_eqb k header); constructor; simpl in *; auto.
      split; [tauto|]. intros E.
      pose proof (setdefault_In block d) as Hin. rewrite E in Hin.
      contradiction.
  - rewrite add_annotation_new by trivial. split.
    + rewrite map_app. simpl. apply NoDup_snoc; trivial.
      intros Hin. apply books_mem_In in Hin. congruence.
    + apply Forall_app. split; trivial.
      constructor; [|constructor]. simpl. split; [trivial | discriminate].
Qed.

Lemma keys_inv_read isalnum infile books :
  keys_inv books -> keys_inv (_read_loop isalnum infile books).
Proof.
  funelim (_read_loop isalnum infile books); intros Hinv; trivial.
  destruct (header_of_line isalnum header_line) eqn:E; simpl; auto.
  match goal with IH : _ -> keys_inv (_read_loop _ (snd _) _) |- _ =>
    apply IH end.
  apply keys_inv_add; [discriminate | trivial].
Qed.

(** X5. The books the Reader builds from a file have pairwise distinct
    headers, no empty header, and at least one block each. *)
Theorem reader_books_are_distinct (isalnum : char -> bool) (infile : file) :
  let books := _read_loop isalnum infile [] in
  NoDup (map fst books)
  /\ Forall (fun entry => fst entry <> [] /\ snd entry <> []) books.
Proof.
  apply keys_inv_read. split; constructor.
Qed.

Lemma read_loop_skips isalnum infile books :
  Forall (fun line => header_of_line isalnum line = []) infile ->
  _read_loop isalnum infile books = books.
Proof.
  induction 1 as [|line rest H _ IH]; [reflexivity|].
  rewrite _read_loop_equation_2. cbv zeta. now rewrite H.
Qed.

(** X6. An input file without any header (an empty file, or only lines
    that are empty once the line terminator and one leading
    non-alphanumeric character are gone), parsed by a parser without books
    whose output path is not empty and goes through no regular file, gives
    no error and no book and changes no regular file. *)
Theorem input_without_headers
  (isalnum : char -> bool) (hash : str -> Z)
  (self : AnnotationParser) (fs : filesystem) (raw : str) :
  fs (input_path self) = Some raw ->
  books self = [] ->
  Forall (fun line => header_of_line isalnum line = []) (open_text raw) ->
  output_path self <> [] ->
  under_a_file fs (output_path self) = false ->
  parse isalnum hash self fs = (Ok tt, self, fs)
  /\ number_of_books self = 0.
Proof.
  intros Hfs Hb Hlines Hop Hunder.
  unfold parse, _read, _write, os_makedirs, number_of_books.
  rewrite Hfs, read_loop_skips by trivial.
  destruct self as [ip op b mo]. simpl in *. subst b. rewrite Hunder.
  destruct op as [|c op]; [congruence|]. simpl.
  destruct (fs (c :: op)); auto.
Qed.

Lemma block_of_entry ls sep rest :
  Forall (fun l => is_separator l = false) ls ->
  is_separator sep = true ->
  lines_of_block (ls ++ sep :: rest) = ls
  /\ file_after_block (ls ++ sep :: rest) = rest.
Proof.
  intros H Hs. induction H as [|l ls Hl _ [IH1 IH2]]; simpl.
  - now rewrite Hs.
  - rewrite Hl. now rewrite IH1, IH2.
Qed.

(** Reading one whole entry is one insertion. *)
Lemma read_entry isalnum header_line ls sep rest books :
  header_of_line isalnum header_line <> [] ->
  Forall (fun l => is_separator l = false) ls ->
  is_separator sep = true ->
  _read_loop isalnum (entry header_line ls sep ++ rest) books
  = _read_loop isalnum rest
      (add_annotation (header_of_line isalnum header_line)
         (_normalize_block (concat (map contribution ls) ++ NEW_LINE))
         books).
Proof.
  intros Hh Hls Hs. unfold entry. simpl. rewrite <- app_assoc. simpl.
  rewrite read_loop_valid_header by trivial.
  unfold _read_block. rewrite read_block_loop_spec.
  destruct (@block_of_entry ls sep rest Hls Hs) as [-> ->]. reflexivity.
Qed.

(** X7. An entry that repeats the entry just before it (same header line,
    same lines, up to the separator) adds nothing: reading both gives what
    reading one gives. *)
Theorem repeated_entry_is_ignored
  (isalnum : char -> bool) (header_line : str) (block_lines : list str)
  (sep : str) (rest : file) (books : Books) :
  header_of_line isalnum header_line <> [] ->
  Forall (fun l => is_separator l = false) block_lines ->
  is_separator sep = true ->
  _read_loop isalnum
    (entry header_line block_lines sep
     ++ entry header_line block_lines sep ++ rest) books
  = _read_loop isalnum (entry header_line block_lines sep ++ rest) books.
Proof.
  intros Hh Hls Hs. rewrite !read_entry by trivial.
  now rewrite add_annotation_twice.
Qed.

(* ===================================================================== *)
(** ** Further properties: Merger *)
(* ===================================================================== *)

Lemma split_aux_no_LF s : forall cur,
  ~ In LF cur -> Forall (fun l => ~ In LF l) (split_aux LF cur s).
Proof.
  induction s as [|x s IH]; simpl; intros cur H.
  - now constructor.
  - destruct (N.eqb x LF) eqn:E.
    + constructor; trivial. apply IH. tauto.
    + apply IH. rewrite in_app_iff. simpl. apply N.eqb_neq in E.
      intuition congruence.
Qed.

Lemma split_loop_shape lines : forall blocks current_block,
  Forall (fun l => ~ In LF l) lines ->
  Forall split_block_ok blocks ->
  Forall split_line_ok current_block ->
  Forall split_block_ok (fst (_split_loop lines blocks current_block))
  /\ Forall split_line_ok (snd (_split_loop lines blocks current_block)).
Proof.
  induction lines as [|line rest IH]; simpl; intros blocks cur Hl Hb Hc.
  - now split.
  - inversion Hl; subst.
    destruct (is_empty (strip line)) eqn:E.
    + destruct cur as [|c cur]; [now apply IH|].
      apply IH; [assumption | | constructor].
      apply Forall_app. split; trivial. constructor; [|constructor].
      exists (c :: cur). split; [discriminate|]. split; trivial.
      apply join_unlines. discriminate.
    + apply IH; [assumption | assumption |].
      apply Forall_app. split; trivial.
      constructor; [|constructor]. split; trivial.
      intros E0. now rewrite E0 in E.
Qed.

Lemma split_into_blocks_shape annotation_text :
  Forall split_block_ok (_split_into_blocks annotation_text).
Proof.
  unfold _split_into_blocks.
  pose proof (@split_loop_shape (split LF annotation_text) [] []) as H.
  destruct (_split_loop (split LF annotation_text) [] []) as [blocks cur].
  simpl in H. destruct H as [Hb Hc]; try constructor.
  - apply split_aux_no_LF. tauto.
  - destruct cur as [|c cur]; trivial.
    apply Forall_app. split; trivial. constructor; [|constructor].
    exists (c :: cur). split; [discriminate|]. split; trivial.
    apply join_unlines. discriminate.
Qed.

(** X8. Whatever the text, every block [_split_into_blocks] returns, and
    so every block [_read_existing_blocks] recovers from a file, is made of
    one or more lines, each closed by one line terminator, none of them
    blank. *)
Theorem recovered_blocks_have_no_blank_line (annotation_text raw : str) :
  Forall split_block_ok (_split_into_blocks annotation_text)
  /\ Forall split_block_ok (_read_existing_blocks raw)
  /\ ~ In [] (_read_existing_blocks raw)
  /\ ~ In NEW_LINE (_read_existing_blocks raw).
Proof.
  assert (H : forall t b, In b (_split_into_blocks t) -> split_block_ok b).
  { intros t b Hb. pose proof (split_into_blocks_shape t) as F.
    rewrite Forall_forall in F. auto. }
  split; [apply split_into_blocks_shape|].
  split; [apply split_into_blocks_shape|].
  split; intros Hin; apply H in Hin;
    destruct Hin as (ls & Hne & Hls & E);
    destruct ls as [|l ls]; try congruence;
    rewrite unlines_cons in E; inversion Hls as [|? ? [Hl _] _]; subst;
    destruct l; try discriminate E; try (now apply Hl).
  injection E as _ E. destruct l; discriminate E.
Qed.

Lemma rstrip_with_nil p s : rstrip_with p s = [] -> forallb p s = true.
Proof.
  intros E. destruct (rstrip_with_split p s) as (ws & Es & F & _).
  rewrite E in Es. simpl in Es. now subst.
Qed.

Lemma split_block_not_white b :
  split_block_ok b -> _normalize_block b <> NEW_LINE.
Proof.
  intros (ls & Hne & Hls & ->) E.
  destruct ls as [|l ls]; [congruence|].
  inversion Hls as [|? ? [Hl _] _]; subst. apply Hl.
  unfold _normalize_block in E.
  assert (E' : rstrip (unlines (l :: ls)) = []).
  { apply (app_inv_tail NEW_LINE). exact E. }
  apply rstrip_with_nil in E'. rewrite unlines_cons, forallb_app in E'.
  apply andb_true_iff in E'. destruct E' as [E' _].
  unfold strip. rewrite <- (app_nil_r l) at 1.
  now rewrite lstrip_with_all.
Qed.

(** X9. Merging never brings the empty block in: a block of the merged
    dictionary was in the dictionary before, or it is a canonical block
    other than the single line terminator. *)
Theorem merge_adds_no_empty_block (raw : str) (d : odict) (b : str) :
  In b (_merge_with_existing raw d) ->
  In b d \/ (canonical b /\ b <> NEW_LINE).
Proof.
  rewrite merge_closed_form, in_app_iff. intros [H|H]; [now left | right].
  apply In_keep_first, filter_In in H. destruct H as [H _].
  apply in_map_iff in H. destruct H as (b0 & <- & Hb0).
  split; [apply normalize_canonical|].
  apply split_block_not_white.
  pose proof (split_into_blocks_shape
                (join NEW_LINE
                   (skipn (match nth_error (splitlines (read_text raw)) 1 with
                           | Some l => if is_empty (strip l) then 1 + 1 else 1
                           | None => 1
                           end) (splitlines (read_text raw))))) as F.
  rewrite Forall_forall in F. now apply F.
Qed.

Lemma fold_setdefault_members bs d b :
  In b bs -> In b (fold_left (fun d b => setdefault b d) bs d).
Proof.
  intros H. rewrite fold_setdefault.
  destruct (odict_mem b d) eqn:M.
  - apply in_or_app. left. now apply odict_mem_In.
  - apply in_or_app. right. apply keep_first_In, filter_In.
    split; trivial. now rewrite M.
Qed.

(** X10. Merging the same file text a second time changes nothing. *)
Theorem merge_is_idempotent (raw : str) (d : odict) :
  _merge_with_existing raw (_merge_with_existing raw d)
  = _merge_with_existing raw d.
Proof.
  rewrite (merge_as_fold raw (_merge_with_existing raw d)).
  apply fold_setdefault_present. apply Forall_forall. intros b Hb.
  rewrite merge_as_fold. now apply fold_setdefault_members.
Qed.

Lemma universal_newlines_plain l :
  has_no_linebreak l = true -> universal_newlines l = l.
Proof.
  induction l as [|x l IH]; simpl; intros H; trivial.
  apply andb_true_iff in H. destruct H as [Hx Hl].
  destruct (N.eqb x CR) eqn:E.
  - apply N.eqb_eq in E. subst x. discriminate Hx.
  - now rewrite IH.
Qed.

Lemma splitlines_aux_plain l : forall cur,
  has_no_linebreak l = true ->
  splitlines_aux cur l
  = match cur ++ l with [] => [] | _ :: _ => [cur ++ l] end.
Proof.
  induction l as [|x l IH]; simpl; intros cur H.
  - rewrite app_nil_r. now destruct cur.
  - apply andb_true_iff in H. destruct H as [Hx Hl].
    apply negb_true_iff in Hx. rewrite Hx, IH by trivial.
    now rewrite <- app_assoc.
Qed.

(** X11. A file that holds one line only (the title line, with or without
    its line terminator, or nothing at all) has no block to recover, and
    merging it leaves the dictionary as it is. *)
Theorem file_with_title_only (title_line : str) (d : odict) :
  has_no_linebreak title_line = true ->
  _read_existing_blocks title_line = []
  /\ _read_existing_blocks (title_line ++ [LF]) = []
  /\ _merge_with_existing title_line d = d
  /\ _merge_with_existing (title_line ++ [LF]) d = d.
Proof.
  intros H.
  assert (E1 : _read_existing_blocks title_line = []).
  { unfold _read_existing_blocks, read_text, splitlines.
    rewrite universal_newlines_plain, splitlines_aux_plain by trivial.
    simpl. now destruct title_line. }
  assert (E2 : _read_existing_blocks (title_line ++ [LF]) = []).
  { unfold _read_existing_blocks, read_text, splitlines.
    rewrite universal_newlines_line, splitlines_aux_line by trivial.
    reflexivity. }
  unfold _merge_with_existing. rewrite E1, E2. auto.
Qed.

(** X12. The first line of the file never counts: two files that differ in
    their first line only give the same blocks. *)
Theorem first_line_is_discarded (line1 line2 rest : str) :
  has_no_linebreak line1 = true ->
  has_no_linebreak line2 = true ->
  _read_existing_blocks (line1 ++ LF :: rest)
  = _read_existing_blocks (line2 ++ LF :: rest).
Proof.
  intros H1 H2. unfold _read_existing_blocks, read_text, splitlines.
  rewrite !universal_newlines_line, !splitlines_aux_line by trivial.
  simpl app.
  generalize (splitlines_aux [] (universal_newlines rest)). intros lines.
  change (nth_error (line1 :: lines) 1) with (nth_error lines 0).
  change (nth_error (line2 :: lines) 1) with (nth_error lines 0).
  destruct (nth_error lines 0) as [l|]; [destruct (is_empty (strip l))|];
    reflexivity.
Qed.

(* ===================================================================== *)
(** ** Further properties: Writer *)
(* ===================================================================== *)

Lemma fs_write_other path data fs p :
  p <> path -> fs_write path data fs p = fs p.
Proof.
  intros H. unfold fs_write. apply str_eqb_neq in H. now rewrite H.
Qed.

Lemma write_book_at isalnum hash output_path merge_option raw_header d fs :
  let out :=
    _write_book isalnum hash output_path merge_option raw_header d fs in
  snd out (book_path isalnum hash output_path raw_header)
  = Some (written_text (fst (_get_title_author raw_header))
                       (snd (_get_title_author raw_header)) (fst out)).
Proof.
  unfold _write_book, book_path.
  destruct (_get_title_author raw_header) as [t a]. simpl.
  now rewrite fs_write_same.
Qed.


Lemma write_loop_cons isalnum hash output_path merge_option h d rest fs :
  _write_loop isalnum hash output_path merge_option ((h, d) :: rest) fs
  = let out := _write_book isalnum hash output_path merge_option h d fs in
    let out' :=
      _write_loop isalnum hash output_path merge_option rest (snd out) in
    ((h, fst out) :: fst out', snd out').
Proof.
  simpl.
  destruct (_write_book isalnum hash output_path merge_option h d fs)
    as [d' fs1]. simpl.
  now destruct (_write_loop isalnum hash output_path merge_option rest fs1).
Qed.





Lemma merge_appends raw d : exists d', _merge_with_existing raw d = d ++ d'.
Proof. rewrite merge_closed_form. eauto. Qed.

Lemma write_loop_books isalnum hash output_path merge_option items : forall fs,
  map fst (fst (_write_loop isalnum hash output_path merge_option items fs))
  = map fst items
  /\ extends items
       (fst (_write_loop isalnum hash output_path merge_option items fs))
  /\ (merge_option = false ->
      fst (_write_loop isalnum hash output_path merge_option items fs)
      = items).
Proof.
  induction items as [|[h d] rest IH]; intros fs0.
  - simpl. repeat split; constructor.
  - rewrite write_loop_cons. cbv zeta. simpl fst.
    destruct (IH (snd (_write_book isalnum hash output_path merge_option
                         h d fs0))) as (K & E & O).
    assert (D : exists d', fst (_write_book isalnum hash output_path
                                  merge_option h d fs0) = d ++ d'
                /\ (merge_option = false -> d' = [])).
    { unfold _write_book. destruct (_get_title_author h) as [t a].
      simpl. destruct merge_option.
      - destruct (fs0 _).
        + destruct (merge_appends s d) as [d' ->]. exists d'.
          split; [trivial | discriminate].
        + exists []. now rewrite app_nil_r.
      - exists []. now rewrite app_nil_r. }
    destruct D as (d' & -> & Od). repeat split.
    + simpl. now rewrite K.
    + now constructor.
    + intros M. rewrite (Od M), app_nil_r, (O M). reflexivity.
Qed.

(** X15. [_write] keeps the books: the same headers in the same order, each
    with the blocks it had, in their places, before any block the merge
    brings; in overwrite mode [self.books] is left as it was. *)
Theorem write_keeps_the_books
  (isalnum : char -> bool) (hash : str -> Z) (output_path : str)
  (merge_option : bool) (items : Books) (fs : filesystem) :
  let after :=
    fst (_write_loop isalnum hash output_path merge_option items fs) in
  map fst after = map fst items
  /\ length after = length items
  /\ extends items after
  /\ fst (_write_loop isalnum hash output_path false items fs) = items.
Proof.
  intros after. unfold after. clear after.
  destruct (write_loop_books isalnum hash output_path merge_option items fs)
    as (K & E & _).
  destruct (write_loop_books isalnum hash output_path false items fs)
    as (_ & _ & O).
  repeat split; trivial.
  - rewrite <- (length_map fst), K. apply length_map.
  - now apply O.
Qed.

(** *** The name and the place of the output file *)

Lemma text_cons c s : text (String c s) = N_of_ascii c :: text s.
Proof. reflexivity. Qed.

Lemma uint_numeral d :
  forallb is_numeral_char (text (NilEmpty.string_of_uint d)) = true.
Proof.
  induction d; simpl NilEmpty.string_of_uint; [reflexivity | ..];
    rewrite text_cons; cbn [forallb]; rewrite IHd; reflexivity.
Qed.

Lemma str_of_int_numeral n : forallb is_numeral_char (str_of_int n) = true.
Proof.
  unfold str_of_int. destruct (Z.to_int n) as [d|d]; simpl NilEmpty.string_of_int.
  - apply uint_numeral.
  - rewrite text_cons. cbn [forallb]. now rewrite uint_numeral.
Qed.

Lemma forallb_filter (p : char -> bool) l : forallb p (filter p l) = true.
Proof.
  apply forallb_forall. intros x Hx. now apply filter_In in Hx.
Qed.

Lemma In_firstn (n : nat) (c : char) l : In c (firstn n l) -> In c l.
Proof.
  intros H. rewrite <- (firstn_skipn n l). apply in_or_app. now left.
Qed.

(** X16. The name of an output file is a safe title of at most 112
    characters, each alphanumeric or one of [ ._()-], then an underscore,
    the decimal numeral of the hash of the raw header, and [.txt]. *)
Theorem output_filename_shape
  (isalnum : char -> bool) (hash : str -> Z) (raw_header : str) :
  exists clean_title,
    output_filename isalnum hash raw_header
    = clean_title ++ text "_" ++ str_of_int (hash raw_header) ++ text ".txt"
    /\ length clean_title <= 112
    /\ forallb (fun ch => isalnum ch || mem_char (text " ._()-") ch)
               clean_title = true
    /\ forallb is_numeral_char (str_of_int (hash raw_header)) = true.
Proof.
  unfold output_filename. eexists. split; [reflexivity|]. split; [|split].
  - apply firstn_le_length.
  - eapply forallb_sub; [intros c Hc; exact (In_firstn _ _ _ Hc)|].
    apply (forallb_filter
             (fun ch => isalnum ch || mem_char SAFE_PUNCTUATION ch)).
  - apply str_of_int_numeral.
Qed.

Lemma forallb_not_In (p : char -> bool) c l :
  p c = false -> forallb p l = true -> ~ In c l.
Proof.
  intros Hc H Hin. rewrite forallb_forall in H. apply H in Hin. congruence.
Qed.

Lemma output_filename_no_slash isalnum hash raw_header :
  isalnum SLASH = false ->
  ~ In SLASH (output_filename isalnum hash raw_header).
Proof.
  intros Hs. unfold output_filename. rewrite !in_app_iff.
  intros [H|[H|[H|H]]].
  - apply In_firstn, filter_In in H. destruct H as [_ H].
    rewrite Hs in H. discriminate H.
  - destruct H as [H|[]]. discriminate H.
  - revert H. apply (@forallb_not_In is_numeral_char); [reflexivity|].
    apply str_of_int_numeral.
  - vm_compute in H. intuition discriminate.
Qed.

(** X17. With a slash that is not alphanumeric, the file name holds no
    slash, and the output path of a book is the output directory, a slash
    unless the directory is empty or ends with one, and the file name:
    the file lies in the output directory itself. *)
Theorem book_file_lies_in_output_directory
  (isalnum : char -> bool) (hash : str -> Z) (output_path raw_header : str) :
  isalnum SLASH = false ->
  ~ In SLASH (output_filename isalnum hash raw_header)
  /\ book_path isalnum hash output_path raw_header
     = output_path
       ++ (if is_empty output_path || N.eqb (last output_path 0%N) SLASH
           then [] else [SLASH])
       ++ output_filename isalnum hash raw_header.
Proof.
  intros Hs. pose proof (output_filename_no_slash isalnum hash raw_header Hs)
    as Hno.
  split; trivial. unfold book_path, os_path_join.
  destruct (output_filename isalnum hash raw_header) as [|c name] eqn:E.
  - now destruct (is_empty output_path || N.eqb (last output_path 0%N) SLASH).
  - destruct (N.eqb c SLASH) eqn:Ec.
    + apply N.eqb_eq in Ec. subst c. exfalso. apply Hno. now left.
    + now destruct (is_empty output_path
                    || N.eqb (last output_path 0%N) SLASH).
Qed.

(** *** Title and author *)

Lemma lstrip_with_app_cases p s t :
  (forallb p s = true /\ lstrip_with p (s ++ t) = lstrip_with p t)
  \/ (lstrip_with p (s ++ t) = lstrip_with p s ++ t).
Proof.
  induction s as [|x s IH]; simpl.
  - left. auto.
  - destruct (p x) eqn:E; simpl; [exact IH | now right].
Qed.

Lemma strip_snoc_space s c : is_space c = true -> strip (s ++ [c]) = strip s.
Proof.
  intros Hc. unfold strip.
  destruct (lstrip_with_app_cases is_space s [c]) as [[F E]|E]; rewrite E.
  - simpl. rewrite Hc. rewrite <- (app_nil_r s) at 1.
    now rewrite lstrip_with_all.
  - rewrite rstrip_with_snoc. now rewrite Hc.
Qed.

(** X18. A header of the form [title (author)], where the author holds no
    opening parenthesis, gives back the title and the author, trimmed. *)
Theorem title_author_of_formatted_header (title author : str) :
  ~ In LPAREN author ->
  _get_title_author (title ++ text " (" ++ author ++ text ")")
  = (strip title, strip author).
Proof.
  intros H.
  rewrite <- (@strip_snoc_space title 32%N eq_refl).
  apply title_author_parens with (post := []).
  unfold last_parens. repeat split; trivial.
  - now rewrite <- app_assoc.
  - now destruct title.
  - intros [].
  - intros [].
Qed.

(** X19. When no opening parenthesis stands after the first character, no
    author is taken: the title is the whole header, trimmed, also when the
    header begins with a parenthesis or is empty. *)
Theorem header_without_inner_parenthesis (book_header : str) :
  ~ In LPAREN (tl book_header) ->
  _get_title_author book_header = (strip book_header, []).
Proof.
  intros H. apply title_author_plain.
  intros pre mid post (E & Hpre & _). apply H.
  destruct pre as [|c pre]; [congruence|]. subst book_header. simpl.
  apply in_or_app. right. now left.
Qed.

Lemma lstrip_with_fixed p r :
  match r with [] => True | x :: _ => p x = false end ->
  lstrip_with p r = r.
Proof. destruct r as [|x r]; simpl; trivial. now intros ->. Qed.

Lemma strip_idempotent s : strip (strip s) = strip s.
Proof.
  unfold strip.
  assert (E : lstrip_with is_space (rstrip_with is_space (lstrip_with is_space s))
              = rstrip_with is_space (lstrip_with is_space s)).
  { apply lstrip_with_fixed.
    destruct (lstrip_with_split is_space s) as (_ & _ & _ & L).
    destruct (rstrip_with_split is_space (lstrip_with is_space s))
      as (ws & E & _).
    destruct (rstrip_with is_space (lstrip_with is_space s)) as [|x r];
      trivial.
    rewrite E in L. exact L. }
  rewrite E. apply rstrip_with_idem.
Qed.

(** X20. The title and the author [_get_title_author] returns carry no
    white space at either end, whatever the header. *)
Theorem title_and_author_are_trimmed (book_header : str) :
  let title := fst (_get_title_author book_header) in
  let author := snd (_get_title_author book_header) in
  strip title = title /\ strip author = author.
Proof.
  unfold _get_title_author.
  destruct ((0 <? rfind LPAREN book_header)
            && (rfind LPAREN book_header <? rfind RPAREN book_header))%Z;
    simpl; split; try apply strip_idempotent; reflexivity.
Qed.

(* ===================================================================== *)
(** ** Further properties: the front end *)
(* ===================================================================== *)

Lemma parse_fresh isalnum hash ip op mo fs raw :
  fs ip = Some raw ->
  op <> [] ->
  fs op = None ->
  under_a_file fs op = false ->
  parse isalnum hash (__init__ ip op mo) fs
  = (Ok tt,
     mkParser ip op
       (fst (_write_loop isalnum hash op mo
               (_read_loop isalnum (open_text raw) []) fs)) mo,
     snd (_write_loop isalnum hash op mo
            (_read_loop isalnum (open_text raw) []) fs)).
Proof.
  intros H Hop Hnone Hunder.
  unfold parse, _read, _write, os_makedirs, __init__, set_books.
  cbn [input_path output_path books merge_option]. rewrite H.
  cbn [input_path output_path books merge_option].
  rewrite Hnone, Hunder. destruct op as [|c op]; [congruence|].
  cbn [is_empty].
  now destruct (_write_loop isalnum hash (c :: op) mo
                  (_read_loop isalnum (open_text raw) []) fs).
Qed.

(** X21. When an entry field is blank, or the input path names no file,
    [run_parser] shows one error box and leaves every file as it was; no
    date stamp is written. *)
Theorem run_parser_failure_changes_nothing
  (isalnum : char -> bool) (hash : str -> Z) (str_of_exception : exn -> str)
  (input_var output_var : str) (date_stamp_var merge_option : bool)
  (now : str) (fs : filesystem) :
  strip input_var = [] \/ strip output_var = []
  \/ fs (strip input_var) = None ->
  exists message,
    run_parser isalnum hash str_of_exception input_var output_var
               date_stamp_var merge_option now fs
    = ([showerror (text "Error") message], fs).
Proof.
  intros H. unfold run_parser.
  destruct (is_empty (strip input_var) || is_empty (strip output_var)) eqn:E.
  - eauto.
  - apply orb_false_iff in E. destruct E as [E1 E2].
    destruct H as [H|[H|H]].
    + rewrite H in E1. discriminate E1.
    + rewrite H in E2. discriminate E2.
    + unfold parse, _read. simpl. rewrite H. eauto.
Qed.

(** X22. When both fields are filled, the input file exists, and the
    output path is no regular file and goes through none, [run_parser]
    shows one information box with the number of books read from the file
    (a fresh parser each time), the files are those [_write] leaves, and
    the date stamp, when asked for, is one more line at the end of
    [LastParseDate.txt]. When the output path is a regular file and the
    input holds a book, it shows an error box instead and changes no file. *)
Theorem run_parser_success
  (isalnum : char -> bool) (hash : str -> Z) (str_of_exception : exn -> str)
  (input_var output_var : str) (date_stamp_var merge_option : bool)
  (now : str) (fs : filesystem) (raw : str) :
  strip input_var <> [] ->
  strip output_var <> [] ->
  fs (strip input_var) = Some raw ->
  let read := _read_loop isalnum (open_text raw) [] in
  let fs' :=
    snd (_write_loop isalnum hash (strip output_var) merge_option read fs) in
  (fs (strip output_var) = None ->
   under_a_file fs (strip output_var) = false ->
   run_parser isalnum hash str_of_exception input_var output_var
              date_stamp_var merge_option now fs
   = ([showinfo (text "Parsing complete")
         (text "Parsing complete." ++ [LF]
          ++ str_of_int (Z.of_nat (length read))
          ++ text " annotation entries created.")],
      if date_stamp_var then save_date_stamp now fs' else fs'))
  /\ (fs (strip output_var) <> None -> read <> [] ->
      run_parser isalnum hash str_of_exception input_var output_var
                 date_stamp_var merge_option now fs
      = ([showerror (text "Error")
            (text "An error occurred:" ++ [LF] ++ str_of_exception OSError)],
         fs))
  /\ save_date_stamp now fs' LAST_PARSE_DATE
     = Some (match fs' LAST_PARSE_DATE with
             | Some old => old
             | None => []
             end ++ now ++ [LF])
  /\ (forall p, p <> LAST_PARSE_DATE -> save_date_stamp now fs' p = fs' p).
Proof.
  intros H1 H2 Hfs read fs'. split; [|split; [|split]].
  - intros Hnone Hunder. unfold run_parser.
    destruct (strip input_var) as [|c1 s1] eqn:E1; [congruence|].
    destruct (strip output_var) as [|c2 s2] eqn:E2; [congruence|].
    simpl orb. cbv iota.
    rewrite (@parse_fresh isalnum hash _ (c2 :: s2) merge_option _ _
               Hfs H2 Hnone Hunder).
    fold read. fold fs'. unfold number_of_books. cbn [books].
    pose proof (write_loop_books isalnum hash (c2 :: s2) merge_option read fs)
      as (K & _ & _).
    assert (L : length (fst (_write_loop isalnum hash (c2 :: s2)
                               merge_option read fs)) = length read)
      by (rewrite <- (length_map fst), K; apply length_map).
    now rewrite L.
  - intros Hsome Hread. unfold run_parser.
    destruct (strip input_var) as [|c1 s1] eqn:E1; [congruence|].
    destruct (strip output_var) as [|c2 s2] eqn:E2; [congruence|].
    simpl orb. cbv iota.
    unfold parse, _read, _write, __init__, set_books.
    cbn [input_path output_path books]. rewrite Hfs.
    cbn [input_path output_path books]. fold read.
    destruct (fs (c2 :: s2)); [|congruence].
    destruct read; [congruence | reflexivity].
  - unfold save_date_stamp, fs_append. rewrite fs_write_same.
    now destruct (fs' LAST_PARSE_DATE).
  - intros p Hp. unfold save_date_stamp, fs_append.
    now apply fs_write_other.
Qed.

(* ===================================================================== *)
(** ** Further properties: the separator line *)
(* ===================================================================== *)

(** X3. A line of ten equals signs is a separator line whatever white
    space stands around it (indentation, trailing blanks, any line
    terminator); and a separator line adds nothing to a block, which ends
    there. *)
Theorem separator_line_tolerates_white_space
  (before after : str) (rest : file) (annotation : str) :
  forallb is_space before = true ->
  forallb is_space after = true ->
  is_separator (before ++ SEPARATOR ++ after) = true
  /\ _read_block_loop ((before ++ SEPARATOR ++ after) :: rest) annotation
     = (annotation ++ NEW_LINE, rest).
Proof.
  intros Hb Ha.
  assert (E : strip (before ++ SEPARATOR ++ after) = SEPARATOR).
  { unfold strip. rewrite lstrip_with_all by trivial.
    change (lstrip_with is_space (SEPARATOR ++ after))
      with (SEPARATOR ++ after).
    now rewrite rstrip_with_all. }
  assert (S : is_separator (before ++ SEPARATOR ++ after) = true).
  { unfold is_separator. rewrite E. reflexivity. }
  split; trivial. cbn [_read_block_loop]. unfold is_separator in S.
  now rewrite S.
Qed.

(* ===================================================================== *)
(** ** The empty block *)
(* ===================================================================== *)

Lemma books_get_add_annotation header block books :
  exists d, books_get header (add_annotation header block books) = Some d
            /\ In block d.
Proof.
  destruct (books_mem header books) eqn:M.
  - rewrite add_annotation_old, books_get_mutate by trivial.
    destruct (books_get header books) as [d|] eqn:G.
    + exists (setdefault block d). split; [reflexivity|].
      apply setdefault_In.
    + apply books_mem_get in G. congruence.
  - rewrite add_annotation_new by trivial.
    pose proof M as G. apply books_mem_get in G.
    rewrite books_get_app, G. simpl. rewrite str_eqb_refl.
    exists [block]. split; [reflexivity | now left].
Qed.

Lemma write_book_keeps_blocks isalnum hash output_path merge_option
  raw_header d fs block :
  In block d ->
  In block (fst (_write_book isalnum hash output_path merge_option
                   raw_header d fs)).
Proof.
  intros H. unfold _write_book. destruct (_get_title_author raw_header).
  simpl. destruct merge_option; trivial.
  destruct (fs _) as [old|]; trivial.
  destruct (merge_appends old d) as [d' ->]. apply in_or_app. now left.
Qed.

(** C10. When the separator line follows a valid header line at once, the
    block read is one line terminator, which is its own canonical form. It
    goes into the book's dictionary through the same insertion as any
    block: the dictionary of the header holds it after the insertion and
    at the end of the reading. [_write] keeps it in the dictionary and
    writes it: in the output file of the book it stands for an empty line,
    followed by the line terminator written after every block. *)
Theorem empty_block_is_kept
  (isalnum : char -> bool) (hash : str -> Z) (header_line sep : str)
  (rest : file) (books : Books) (title author : str) (before after : odict)
  (output_path : str) (merge_option : bool) (fs : filesystem) :
  header_of_line isalnum header_line <> [] ->
  is_separator sep = true ->
  let header := header_of_line isalnum header_line in
  let read := _read_loop isalnum (header_line :: sep :: rest) books in
  _read_block (sep :: rest) = (NEW_LINE, rest)
  /\ _normalize_block NEW_LINE = NEW_LINE
  /\ read = _read_loop isalnum rest (add_annotation header NEW_LINE books)
  /\ written_text title author (before ++ NEW_LINE :: after)
     = title ++ text ", " ++ author ++ [LF] ++ [LF]
       ++ concat (map (fun b => b ++ [LF]) before)
       ++ [LF; LF]
       ++ concat (map (fun b => b ++ [LF]) after)
  /\ (exists d, books_get header (add_annotation header NEW_LINE books)
                = Some d /\ In NEW_LINE d)
  /\ exists d,
       books_get header read = Some d
       /\ In NEW_LINE d
       /\ exists written_before written_after,
            fst (_write_book isalnum hash output_path merge_option
                   header d fs)
            = written_before ++ NEW_LINE :: written_after
            /\ snd (_write_book isalnum hash output_path merge_option
                      header d fs)
                   (os_path_join output_path
                      (output_filename isalnum hash header))
               = Some (fst (_get_title_author header) ++ text ", "
                       ++ snd (_get_title_author header) ++ [LF] ++ [LF]
                       ++ concat (map (fun b => b ++ [LF]) written_before)
                       ++ [LF; LF]
                       ++ concat (map (fun b => b ++ [LF]) written_after)).
Proof.
  intros Hh Hs header read.
  assert (Hb : _read_block (sep :: rest) = (NEW_LINE, rest)).
  { unfold _read_block. simpl. unfold is_separator in Hs. now rewrite Hs. }
  assert (Hread : read
                  = _read_loop isalnum rest
                      (add_annotation header NEW_LINE books)).
  { unfold read. rewrite read_loop_valid_header by trivial. now rewrite Hb. }
  assert (Htext : forall t a d1 d2,
    written_text t a (d1 ++ NEW_LINE :: d2)
    = t ++ text ", " ++ a ++ [LF] ++ [LF]
      ++ concat (map (fun b => b ++ [LF]) d1)
      ++ [LF; LF]
      ++ concat (map (fun b => b ++ [LF]) d2)).
  { intros t a d1 d2. rewrite written_text_eq, map_app, concat_app.
    reflexivity. }
  destruct (books_get_add_annotation header NEW_LINE books) as (d0 & G0 & I0).
  split; [exact Hb|]. split; [reflexivity|]. split; [exact Hread|].
  split; [apply Htext|]. split; [now exists d0|].
  destruct (extends_get header
              (extends_read isalnum rest
                 (add_annotation header NEW_LINE books)) G0) as (d' & G).
  exists (d0 ++ d'). rewrite Hread. split; [exact G|].
  split; [apply in_or_app; now left|].
  assert (Hin : In NEW_LINE
                  (fst (_write_book isalnum hash output_path merge_option
                          header (d0 ++ d') fs))).
  { apply write_book_keeps_blocks. apply in_or_app. now left. }
  apply in_split in Hin. destruct Hin as (w1 & w2 & E).
  exists w1, w2. split; [exact E|].
  pose proof (write_book_at isalnum hash output_path merge_option header
                (d0 ++ d') fs) as W.
  cbv zeta in W. unfold book_path in W. rewrite W, E. f_equal.
  apply Htext.
Qed.

(* ===================================================================== *)
(** ** The further properties at work on sample data *)
(* ===================================================================== *)

(** A header seen again keeps its first place: H1, H2, H1 gives H1, H2. *)
Example headers_in_first_seen_order :
  let infile :=
    open_text (text "H1" ++ [LF] ++ text "a" ++ [LF] ++ SEPARATOR ++ [LF]
               ++ text "H2" ++ [LF] ++ text "b" ++ [LF] ++ SEPARATOR ++ [LF]
               ++ text "H1" ++ [LF] ++ text "c" ++ [LF] ++ SEPARATOR ++ [LF]) in
  entry_headers ascii_isalnum infile = [text "H1"; text "H2"; text "H1"]
  /\ _read_loop ascii_isalnum infile []
     = [(text "H1", [text "a" ++ [LF]; text "c" ++ [LF]]);
        (text "H2", [text "b" ++ [LF]])].
Proof. vm_compute. auto. Qed.

(** With an empty output path [os.makedirs] raises; with an output path
    that is a regular file the first [open] does. *)
Example write_failures :
  parse ascii_isalnum (const_hash 7)
        (__init__ (text "clippings.txt") [] true) sample_fs
  = (Raise FileNotFoundError,
     mkParser (text "clippings.txt") []
              [(sample_header, [sample_block])] true, sample_fs)
  /\ fst (fst (parse ascii_isalnum (const_hash 7)
                 (__init__ (text "clippings.txt") (text "clippings.txt") true)
                 sample_fs))
     = Raise OSError
  /\ fst (fst (parse ascii_isalnum (const_hash 7)
                 (__init__ (text "clippings.txt")
                           (text "clippings.txt/out") true)
                 sample_fs))
     = Raise OSError.
Proof. vm_compute. auto. Qed.

Lemma separator_line_tolerates_white_space_witness :
  is_separator (text "  " ++ SEPARATOR ++ [CR; LF]) = true.
Proof.
  refine (proj1 (@separator_line_tolerates_white_space
                   (text "  ") [CR; LF] [] [] _ _)); reflexivity.
Defined.

Lemma input_without_headers_witness :
  parse ascii_isalnum (const_hash 7)
        (__init__ (text "clippings.txt") (text "out") true) blank_fs
  = (Ok tt, __init__ (text "clippings.txt") (text "out") true, blank_fs).
Proof.
  refine (proj1 (@input_without_headers ascii_isalnum (const_hash 7)
                   (__init__ (text "clippings.txt") (text "out") true)
                   blank_fs [LF; LF] _ _ _ _ _)).
  - reflexivity.
  - reflexivity.
  - vm_compute. repeat constructor.
  - vm_compute. discriminate.
  - reflexivity.
Defined.

Lemma repeated_entry_is_ignored_witness :
  _read_loop ascii_isalnum
    (entry sample_header_line [sample_block] sample_separator_line
     ++ entry sample_header_line [sample_block] sample_separator_line ++ [])
    []
  = _read_loop ascii_isalnum
      (entry sample_header_line [sample_block] sample_separator_line ++ [])
      [].
Proof.
  apply (@repeated_entry_is_ignored ascii_isalnum sample_header_line
           [sample_block] sample_separator_line [] []).
  - vm_compute. discriminate.
  - repeat constructor.
  - reflexivity.
Defined.

Lemma merge_adds_no_empty_block_witness :
  In (text "An older note." ++ [LF]) [sample_block]
  \/ (canonical (text "An older note." ++ [LF])
      /\ text "An older note." ++ [LF] <> NEW_LINE).
Proof.
  apply (@merge_adds_no_empty_block sample_old_file [sample_block]).
  vm_compute. right. left. reflexivity.
Defined.

Lemma file_with_title_only_witness :
  _merge_with_existing (text "My Book, Jane Doe" ++ [LF]) [sample_block]
  = [sample_block].
Proof.
  refine (proj2 (proj2 (proj2
    (@file_with_title_only (text "My Book, Jane Doe") [sample_block] _)))).
  reflexivity.
Defined.

Lemma first_line_is_discarded_witness :
  _read_existing_blocks
    (text "My Book, Jane Doe" ++ LF :: [LF] ++ sample_block)
  = _read_existing_blocks
      (text "something else" ++ LF :: [LF] ++ sample_block).
Proof.
  apply (@first_line_is_discarded (text "My Book, Jane Doe")
           (text "something else") ([LF] ++ sample_block));
    reflexivity.
Defined.


Lemma book_file_lies_in_output_directory_witness :
  book_path ascii_isalnum (const_hash 7) (text "out") sample_header
  = text "out" ++ [SLASH]
    ++ output_filename ascii_isalnum (const_hash 7) sample_header.
Proof.
  refine (proj2 (@book_file_lies_in_output_directory ascii_isalnum
                   (const_hash 7) (text "out") sample_header _)).
  reflexivity.
Defined.

Lemma title_author_of_formatted_header_witness :
  _get_title_author (text "My Book" ++ text " (" ++ text "Jane Doe" ++ text ")")
  = (text "My Book", text "Jane Doe").
Proof.
  apply (@title_author_of_formatted_header (text "My Book") (text "Jane Doe")).
  vm_compute. intuition discriminate.
Defined.

Lemma header_without_inner_parenthesis_witness :
  _get_title_author (text "(Anonymous)") = (text "(Anonymous)", []).
Proof.
  apply (@header_without_inner_parenthesis (text "(Anonymous)")).
  vm_compute. intuition discriminate.
Defined.

Lemma run_parser_failure_changes_nothing_witness :
  exists message,
    run_parser ascii_isalnum (const_hash 7) sample_str_of_exception
               (text "  ") (text "out")
               true true (text "2024-01-01T00:00:00") sample_fs
    = ([showerror (text "Error") message], sample_fs).
Proof.
  apply (@run_parser_failure_changes_nothing ascii_isalnum (const_hash 7)
           sample_str_of_exception
           (text "  ") (text "out") true true (text "2024-01-01T00:00:00")
           sample_fs).
  left. reflexivity.
Defined.

Lemma run_parser_success_witness :
  fst (run_parser ascii_isalnum (const_hash 7) sample_str_of_exception
         (text " clippings.txt ")
         (text "out") true true (text "2024-01-01T00:00:00") sample_fs)
  = [showinfo (text "Parsing complete")
       (text "Parsing complete." ++ [LF] ++ text "1"
        ++ text " annotation entries created.")]
  /\ run_parser ascii_isalnum (const_hash 7) sample_str_of_exception
       (text "clippings.txt") (text "clippings.txt") true true
       (text "2024-01-01T00:00:00") sample_fs
     = ([showerror (text "Error")
           (text "An error occurred:" ++ [LF]
            ++ sample_str_of_exception OSError)], sample_fs).
Proof.
  assert (H1 : strip (text " clippings.txt ") <> [])
    by (vm_compute; discriminate).
  assert (H2 : strip (text "out") <> []) by (vm_compute; discriminate).
  assert (H3 : sample_fs (strip (text " clippings.txt "))
               = Some sample_clippings) by (vm_compute; reflexivity).
  assert (G1 : strip (text "clippings.txt") <> [])
    by (vm_compute; discriminate).
  assert (G3 : sample_fs (strip (text "clippings.txt"))
               = Some sample_clippings) by (vm_compute; reflexivity).
  split.
  - rewrite (proj1 (@run_parser_success ascii_isalnum (const_hash 7)
                      sample_str_of_exception
                      (text " clippings.txt ") (text "out") true true
                      (text "2024-01-01T00:00:00") sample_fs sample_clippings
                      H1 H2 H3)).
    + vm_compute. reflexivity.
    + vm_compute. reflexivity.
    + vm_compute. reflexivity.
  - apply (proj1 (proj2 (@run_parser_success ascii_isalnum (const_hash 7)
                           sample_str_of_exception
                           (text "clippings.txt") (text "clippings.txt")
                           true true (text "2024-01-01T00:00:00") sample_fs
                           sample_clippings G1 G1 G3))).
    + rewrite G3. discriminate.
    + vm_compute. discriminate.
Defined.

Lemma empty_block_is_kept_witness :
  exists d,
    books_get sample_header
      (_read_loop ascii_isalnum [sample_header_line; SEPARATOR ++ [LF]] [])
    = Some d
    /\ In NEW_LINE d
    /\ exists written_before written_after,
         fst (_write_book ascii_isalnum (const_hash 7) (text "out") true
                sample_header d no_files)
         = written_before ++ NEW_LINE :: written_after
         /\ snd (_write_book ascii_isalnum (const_hash 7) (text "out") true
                   sample_header d no_files)
                (os_path_join (text "out")
                   (output_filename ascii_isalnum (const_hash 7)
                      sample_header))
            = Some (fst (_get_title_author sample_header) ++ text ", "
                    ++ snd (_get_title_author sample_header) ++ [LF] ++ [LF]
                    ++ concat (map (fun b => b ++ [LF]) written_before)
                    ++ [LF; LF]
                    ++ concat (map (fun b => b ++ [LF]) written_after)).
Proof.
  refine (proj2 (proj2 (proj2 (proj2 (proj2
    (@empty_block_is_kept ascii_isalnum (const_hash 7) sample_header_line
       (SEPARATOR ++ [LF]) [] [] [] [] [] [] (text "out") true no_files
       _ _)))))).
  - vm_compute. discriminate.
  - vm_compute. reflexivity.
Defined.
